(** * Breadcrumb desktop icon generator: a shallow embedding

    The development follows [desktop/scripts/generate-icon.py].  The script
    is one straight line of Pillow drawing calls on an RGBA canvas, a font
    fallback chain, and a final [os.makedirs] / [img.save].

    - Python [int] is [Z]; Python [float] is IEEE-754 binary64, taken from
      the standard library's [SpecFloat] (round to nearest, ties to even).
    - Pillow and the file system are collaborators outside the script: the
      canvas is the log of drawing calls it received, and the host decides
      the outcome of every font and file-system call.
    - Exceptions are values of [exn]; a computation that may raise returns
      [exn + A]. *)

From Stdlib Require Import ZArith List String Ascii Bool Lia QArith Qpower Lqa.
From Stdlib Require Import Floats.SpecFloat DecimalString Sorted.
Import ListNotations.
Local Open Scope string_scope.
Local Open Scope Z_scope.

(** ** Exceptions *)

(** Python exception classes that the script can meet.  [IOError] is the
    same class as [OSError] in Python 3, and [FileNotFoundError],
    [PermissionError] and friends derive from it: all of them are
    [OSError] here, told apart by their message only. *)
Inductive exn : Type :=
  | OSError (msg : string)
  | OverflowError (msg : string)
  | ValueError (msg : string)
  | ZeroDivisionError (msg : string)
  | OtherError (cls : string).

(** [isinstance(e, (OSError, IOError))] *)
Definition is_OSError (e : exn) : bool :=
  match e with
  | OSError _ => true
  | _ => false
  end.

(** ** Python floats *)

Module PyFloat.

Definition prec : Z := 53.
Definition emax : Z := 1024.

Definition float := spec_float.

Definition is_finite (f : float) : bool :=
  match f with
  | S754_zero _ | S754_finite _ _ _ => true
  | _ => false
  end.

(** [float(n)] for an [int]: correctly rounded, [OverflowError] when the
    rounded value does not fit. *)
Definition of_int (n : Z) : exn + float :=
  let f := binary_normalize prec emax n 0 false in
  if is_finite f then inr f
  else inl (OverflowError "int too large to convert to float").

(** The integer [n] as an unrounded mantissa with exponent 0. *)
Definition raw_int (n : Z) : float :=
  match n with
  | Z0 => S754_zero false
  | Zpos p => S754_finite false p 0
  | Zneg p => S754_finite true p 0
  end.

(** [a / b] on two [int]s: the correctly rounded quotient. *)
Definition int_truediv (a b : Z) : exn + float :=
  if b =? 0 then inl (ZeroDivisionError "division by zero")
  else
    let q := SFdiv prec emax (raw_int a) (raw_int b) in
    if is_finite q then inr q
    else inl (OverflowError "integer division result too large for a float").

(** A decimal literal [num/den] (0.5 is 5/10, 0.15 is 15/100): the
    double nearest to the written value. *)
Definition literal (num den : Z) : float :=
  SFdiv prec emax (raw_int num) (raw_int den).

Definition mul (x y : float) : float := SFmul prec emax x y.
Definition sub (x y : float) : float := SFsub prec emax x y.

(** [n * y] and [n - y] with an [int] on the left: the [int] is
    converted first. *)
Definition int_mul (n : Z) (y : float) : exn + float :=
  match of_int n with
  | inl e => inl e
  | inr x => inr (mul x y)
  end.

Definition int_sub (n : Z) (y : float) : exn + float :=
  match of_int n with
  | inl e => inl e
  | inr x => inr (sub x y)
  end.

(** [int(f)]: truncation toward zero. *)
Definition to_int (f : float) : exn + Z :=
  match f with
  | S754_zero _ => inr 0
  | S754_finite s m e =>
      let a := Z.shiftl (Zpos m) e in
      inr (if s then - a else a)
  | S754_infinity _ =>
      inl (OverflowError "cannot convert float infinity to integer")
  | S754_nan => inl (ValueError "cannot convert float NaN to integer")
  end.

End PyFloat.

(** Sequencing of computations that may raise. *)
Definition ebind {A B : Type} (c : exn + A) (k : A -> exn + B) : exn + B :=
  match c with
  | inl e => inl e
  | inr a => k a
  end.

Notation "'let!' x ':=' c 'in' k" := (ebind c (fun x => k))
  (at level 10, x name, c at level 100, k at level 200).

(** ** [range] with an explicit step

    The number of items is computed as CPython does.  A zero step is a
    [ValueError] in Python; the script only ever passes [-3], and
    [py_range] is empty there. *)

Definition range_len (start stop step : Z) : Z :=
  if 0 <? step then
    (if start <? stop then (stop - start - 1) / step + 1 else 0)
  else if step <? 0 then
    (if stop <? start then (start - stop - 1) / (- step) + 1 else 0)
  else 0.

Definition py_range (start stop step : Z) : list Z :=
  map (fun i => start + Z.of_nat i * step)
      (seq 0 (Z.to_nat (range_len start stop step))).

(** ** POSIX paths: [os.path.join] and [os.path.dirname] *)

Module PosixPath.

Definition sep : ascii := "/"%char.

Definition is_sep (c : ascii) : bool := Ascii.eqb c sep.

Definition startswith_sep (s : string) : bool :=
  match s with
  | String c _ => is_sep c
  | EmptyString => false
  end.

Fixpoint endswith_sep (s : string) : bool :=
  match s with
  | EmptyString => false
  | String c EmptyString => is_sep c
  | String _ r => endswith_sep r
  end.

(** One round of the loop of [posixpath.join]. *)
Definition join_step (path b : string) : string :=
  if startswith_sep b then b
  else if (String.eqb path "" || endswith_sep path)%bool then path ++ b
  else path ++ String sep b.

(** [os.path.join(a, *p)] *)
Definition join (a : string) (p : list string) : string :=
  fold_left join_step p a.

(** [p[:p.rfind('/') + 1]] *)
Fixpoint upto_last_sep (p : string) : string :=
  match p with
  | EmptyString => EmptyString
  | String c r =>
      match upto_last_sep r with
      | EmptyString => if is_sep c then String c EmptyString else EmptyString
      | h => String c h
      end
  end.

(** [head != '/' * len(head)] is [negb (all_sep head)] *)
Fixpoint all_sep (s : string) : bool :=
  match s with
  | EmptyString => true
  | String c r => (is_sep c && all_sep r)%bool
  end.

(** [head.rstrip('/')] *)
Fixpoint rstrip_sep (s : string) : string :=
  match s with
  | EmptyString => EmptyString
  | String c r =>
      match rstrip_sep r with
      | EmptyString => if is_sep c then EmptyString else String c EmptyString
      | t => String c t
      end
  end.

(** [os.path.dirname(p)] *)
Definition dirname (p : string) : string :=
  let head := upto_last_sep p in
  if (negb (String.eqb head "") && negb (all_sep head))%bool
  then rstrip_sep head
  else head.

End PosixPath.

(** ** The Pillow collaborator: colours, fonts, drawing calls, images *)

Definition RGBA : Type := Z * Z * Z * Z.
Definition Point : Type := Z * Z.
Definition Box : Type := Point * Point.
Definition BBox : Type := Z * Z * Z * Z.

Definition alpha_of (c : RGBA) : Z := let '(_, _, _, a) := c in a.

(** A loaded font: where it came from and the box [font.getbbox(text)]
    (left, top, right, bottom) it measures for a text drawn at the origin. *)
Record Font : Type := {
  font_face : string;
  font_getbbox : string -> BBox
}.

(** [ImageDraw.textbbox(xy, text, font)]: the measured box moved to [xy]. *)
Definition textbbox (xy : Point) (text : string) (font : Font) : BBox :=
  let '(l, t, r, b) := font_getbbox font text in
  (l + fst xy, t + snd xy, r + fst xy, b + snd xy).

(** The calls of [ImageDraw.Draw] that the script makes, with the
    arguments it passes ([None] for an argument left at its default). *)
Inductive DrawOp : Type :=
  | RoundedRectangle (xy : Box) (radius : Z)
                     (fill outline : option RGBA) (width : Z)
  | Ellipse (xy : Box) (fill : RGBA)
  | Line (xy : list Point) (fill : RGBA) (width : Z)
  | Text (xy : Point) (text : string) (fill : RGBA) (font : Font).

(** An image: what [Image.new] was given and the drawing calls made on it
    since, oldest first. *)
Record Image : Type := {
  img_mode : string;
  img_size : Z * Z;
  img_color : RGBA;
  img_drawn : list DrawOp
}.

Definition Image_new (mode : string) (size : Z * Z) (color : RGBA) : Image :=
  {| img_mode := mode; img_size := size; img_color := color;
     img_drawn := [] |}.

(** ** The host: fonts and file system *)

Record Host : Type := {
  (** [__file__] *)
  script_file : string;
  (** [ImageFont.truetype(path, size)] *)
  truetype : string -> Z -> exn + Font;
  (** [ImageFont.load_default()] *)
  load_default : Font;
  (** [os.makedirs(path, exist_ok=...)]: the exception raised, if any *)
  os_makedirs : string -> bool -> option exn;
  (** [img.save(path, format)]: the exception raised, if any *)
  image_save : Image -> string -> string -> option exn
}.

(** What a run does, in order. *)
Inductive Event : Type :=
  | EvDraw (op : DrawOp)
  | EvTruetype (path : string) (size : Z)
  | EvLoadDefault
  | EvMakedirs (path : string) (exist_ok : bool)
  | EvSave (img : Image) (path : string) (format : string)
  | EvPrint (line : string).

Definition is_draw (ev : Event) : bool :=
  match ev with EvDraw _ => true | _ => false end.

Definition is_filesystem (ev : Event) : bool :=
  match ev with EvMakedirs _ _ | EvSave _ _ _ => true | _ => false end.

Definition is_save (ev : Event) : bool :=
  match ev with EvSave _ _ _ => true | _ => false end.

(** ** The script's state and its monad *)

Record World : Type := {
  img : Image;
  trace : list Event
}.

Definition M (A : Type) : Type := World -> (exn + A) * World.

Definition ret {A : Type} (a : A) : M A := fun w => (inr a, w).

Definition bind {A B : Type} (c : M A) (k : A -> M B) : M B :=
  fun w =>
    match c w with
    | (inl e, w') => (inl e, w')
    | (inr a, w') => k a w'
    end.

Definition lift {A : Type} (c : exn + A) : M A := fun w => (c, w).

Definition emit (ev : Event) : M unit :=
  fun w => (inr tt, {| img := img w; trace := trace w ++ [ev] |}).

(** [try: c except (OSError, IOError): handler] *)
Definition try_except_OSError {A : Type} (c handler : M A) : M A :=
  fun w =>
    match c w with
    | (inl e, w') => if is_OSError e then handler w' else (inl e, w')
    | ok => ok
    end.

Declare Scope script_scope.
Delimit Scope script_scope with script.
Notation "x <- c ;; k" := (bind c (fun x => k))
  (at level 61, c at next level, right associativity) : script_scope.
Notation "c ;; k" := (bind c (fun _ => k))
  (at level 61, right associativity) : script_scope.
Local Open Scope script_scope.

(** A drawing call: the shared image records it. *)
Definition draw (op : DrawOp) : M unit :=
  fun w =>
    let i := img w in
    (inr tt,
     {| img := {| img_mode := img_mode i; img_size := img_size i;
                  img_color := img_color i;
                  img_drawn := img_drawn i ++ [op] |};
        trace := trace w ++ [EvDraw op] |}).

Fixpoint for_each {A : Type} (l : list A) (body : A -> M unit) : M unit :=
  match l with
  | [] => ret tt
  | a :: l' => body a ;; for_each l' body
  end.

Definition of_outcome (o : option exn) : M unit :=
  lift (match o with Some e => inl e | None => inr tt end).

(** ** The script *)

Definition SIZE : Z := 1024.

Definition OUT (h : Host) : string :=
  PosixPath.join (PosixPath.dirname (script_file h))
                 [".."; "assets"; "icon.png"].

Definition bg_color : RGBA := (22, 22, 42, 255).
Definition accent : RGBA := (99, 102, 241, 255).
Definition accent_light : RGBA := (165, 180, 252, 255).
Definition radius : Z := 200.

Definition dots : list (Z * Z * Z) :=
  [ (300, 680, 70);
    (512, 512, 55);
    (700, 360, 40) ].

Definition line_color : RGBA := (99, 102, 241, 100).
Definition chevron_color : RGBA := (99, 102, 241, 60).
Definition b_color : RGBA := (255, 255, 255, 35).

(** [int(40 * (1 - (glow_r - r) / 30))] *)
Definition glow_alpha (r glow_r : Z) : exn + Z :=
  let! q := PyFloat.int_truediv (glow_r - r) 30 in
  let! d := PyFloat.int_sub 1 q in
  let! p := PyFloat.int_mul 40 d in
  PyFloat.to_int p.

(** The body of the glow loop. *)
Definition glow_circle (x y r glow_r : Z) : M unit :=
  alpha <- lift (glow_alpha r glow_r) ;;
  draw (Ellipse ((x - glow_r, y - glow_r), (x + glow_r, y + glow_r))
                (99, 102, 241, alpha)).

(** [int(r * c)] for a float [c] *)
Definition int_of_scaled (r : Z) (c : PyFloat.float) : exn + Z :=
  let! p := PyFloat.int_mul r c in
  PyFloat.to_int p.

(** [int(r * 0.5)] *)
Definition highlight_radius (r : Z) : exn + Z :=
  int_of_scaled r (PyFloat.literal 5 10).

(** [int(r * 0.15)] *)
Definition highlight_shift (r : Z) : exn + Z :=
  int_of_scaled r (PyFloat.literal 15 100).

(** The body of [for x, y, r in dots]. *)
Definition draw_dot (dot : Z * Z * Z) : M unit :=
  let '(x, y, r) := dot in
  for_each (py_range (r + 30) r (-3)) (glow_circle x y r) ;;
  draw (Ellipse ((x - r, y - r), (x + r, y + r)) accent) ;;
  highlight_r <- lift (highlight_radius r) ;;
  up0 <- lift (highlight_shift r) ;;
  up1 <- lift (highlight_shift r) ;;
  draw (Ellipse ((x - highlight_r, y - highlight_r - up0),
                 (x + highlight_r, y + highlight_r - up1))
                accent_light).

(** The body of [for offset in [0, 35]]. *)
Definition draw_chevron (offset : Z) : M unit :=
  let cx := 770 + offset in
  let cy := 305 - offset / 2 in
  draw (Line [(cx, cy - 15); (cx + 15, cy); (cx, cy + 15)] chevron_color 4).

Definition SF_COMPACT : string := "/System/Library/Fonts/SFCompact.ttf".
Definition HELVETICA : string := "/System/Library/Fonts/Helvetica.ttc".

Definition load_truetype (h : Host) (path : string) (size : Z) : M Font :=
  emit (EvTruetype path size) ;;
  lift (truetype h path size).

(** The font fallback chain. *)
Definition resolve_font (h : Host) : M Font :=
  try_except_OSError
    (load_truetype h SF_COMPACT 220)
    (try_except_OSError
       (load_truetype h HELVETICA 220)
       (emit EvLoadDefault ;; ret (load_default h))).

(** [str(n)] *)
Definition str (n : Z) : string := NilZero.string_of_int (Z.to_int n).

(** Where the glyph is drawn: [(SIZE - bw - 160, SIZE - bh - 140)] with
    [bw], [bh] the width and height of the box measured at the origin. *)
Definition glyph_xy (font : Font) : Point :=
  let '(b0, b1, b2, b3) := textbbox (0, 0) "B" font in
  let bw := b2 - b0 in
  let bh := b3 - b1 in
  (SIZE - bw - 160, SIZE - bh - 140).

Definition glyph_op (font : Font) : DrawOp :=
  Text (glyph_xy font) "B" b_color font.

Definition draw_glyph (font : Font) : M unit :=
  draw (glyph_op font).

Definition save_image (h : Host) (path format : string) : M unit :=
  fun w =>
    (emit (EvSave (img w) path format) ;;
     of_outcome (image_save h (img w) path format)) w.

Definition makedirs (h : Host) (path : string) (exist_ok : bool) : M unit :=
  emit (EvMakedirs path exist_ok) ;;
  of_outcome (os_makedirs h path exist_ok).

(** Lines 19 to 74: background, border, dots, trail lines, chevrons.
    Nothing here consults the host. *)
Definition artwork : M unit :=
  draw (RoundedRectangle ((40, 40), (SIZE - 40, SIZE - 40)) radius
                         (Some bg_color) None 1) ;;
  draw (RoundedRectangle ((44, 44), (SIZE - 44, SIZE - 44)) (radius - 4)
                         None (Some (255, 255, 255, 20)) 2) ;;
  for_each dots draw_dot ;;
  draw (Line [(300, 680); (512, 512)] line_color 8) ;;
  draw (Line [(512, 512); (700, 360)] line_color 6) ;;
  for_each [0; 35] draw_chevron.

(** [f"Icon saved to {OUT} ({SIZE}x{SIZE})"] *)
Definition confirmation (h : Host) : string :=
  "Icon saved to " ++ OUT h ++ " (" ++ str SIZE ++ "x" ++ str SIZE ++ ")".

(** Lines 76 to 98: font, glyph, directory, save, confirmation. *)
Definition finish (h : Host) : M unit :=
  font <- resolve_font h ;;
  draw_glyph font ;;
  makedirs h (PosixPath.dirname (OUT h)) true ;;
  save_image h (OUT h) "PNG" ;;
  emit (EvPrint (confirmation h)).

Definition script (h : Host) : M unit :=
  artwork ;; finish h.

(** [img = Image.new('RGBA', (SIZE, SIZE), (0, 0, 0, 0))], nothing drawn
    and nothing done yet. *)
Definition blank : World :=
  {| img := Image_new "RGBA" (SIZE, SIZE) (0, 0, 0, 0); trace := [] |}.

(** The whole run. *)
Definition run (h : Host) : (exn + unit) * World :=
  script h blank.

(** What a run returned, the image it composed, and what it did. *)
Definition outcome (h : Host) : exn + unit := fst (run h).
Definition composed (h : Host) : Image := img (snd (run h)).
Definition events (h : Host) : list Event := trace (snd (run h)).

(** The font the chain ends with, whatever the state of the run. *)
Definition resolved_font (h : Host) : exn + Font := fst (resolve_font h blank).

(** ** Vocabulary for the statements *)

(** The world after some more drawing calls. *)
Definition after_drawing (w : World) (ops : list DrawOp) : World :=
  {| img := {| img_mode := img_mode (img w); img_size := img_size (img w);
               img_color := img_color (img w);
               img_drawn := img_drawn (img w) ++ ops |};
     trace := trace w ++ map EvDraw ops |}.

(** The distances [glow_r - r] the glow loop goes through, and the alpha
    computed at each. *)
Definition glow_offsets : list Z := [30; 27; 24; 21; 18; 15; 12; 9; 6; 3].
Definition glow_alphas : list Z := [0; 3; 7; 12; 16; 20; 24; 28; 32; 36].

(** The bounding box of the circle of radius [r] around [(cx, cy)]. *)
Definition circle_box (cx cy r : Z) : Box :=
  ((cx - r, cy - r), (cx + r, cy + r)).

(** The glow circle at distance [fst da] from the core, with alpha
    [snd da]. *)
Definition glow_ellipse (x y r : Z) (da : Z * Z) : DrawOp :=
  Ellipse (circle_box x y (r + fst da)) (99, 102, 241, snd da).

Definition glow_ellipses (x y r : Z) : list DrawOp :=
  map (glow_ellipse x y r) (combine glow_offsets glow_alphas).

Definition core_ellipse (dot : Z * Z * Z) : DrawOp :=
  let '(x, y, r) := dot in Ellipse (circle_box x y r) accent.

Definition dot_radius (dot : Z * Z * Z) : Z := snd dot.

Definition RGBA_eqb (c d : RGBA) : bool :=
  let '(r1, g1, b1, a1) := c in
  let '(r2, g2, b2, a2) := d in
  ((r1 =? r2) && (g1 =? g2) && (b1 =? b2) && (a1 =? a2))%bool.

(** An ellipse filled with the opaque accent colour. *)
Definition is_core (op : DrawOp) : bool :=
  match op with
  | Ellipse _ fill => RGBA_eqb fill accent
  | _ => false
  end.

(** A pixel of the ellipse inscribed in a box: inside the box and inside
    the curve (coordinates doubled, so that the centre is integral). *)
Definition in_ellipse (box : Box) (p : Point) : Prop :=
  let '((x0, y0), (x1, y1)) := box in
  let '(px, py) := p in
  x0 <= px <= x1 /\ y0 <= py <= y1 /\
  (2 * px - (x0 + x1)) ^ 2 * (y1 - y0) ^ 2
  + (2 * py - (y0 + y1)) ^ 2 * (x1 - x0) ^ 2
  <= (x1 - x0) ^ 2 * (y1 - y0) ^ 2.

Definition box_inside (inner outer : Box) : Prop :=
  let '((a0, b0), (a1, b1)) := inner in
  let '((x0, y0), (x1, y1)) := outer in
  x0 <= a0 /\ a1 <= x1 /\ y0 <= b0 /\ b1 <= y1.

(** The box of the inner highlight: radius [hr], moved up by [up]. *)
Definition highlight_box (x y hr up : Z) : Box :=
  ((x - hr, y - hr - up), (x + hr, y + hr - up)).

(** The value [m * 2^e] of a mantissa and an exponent. *)
Definition dyadic (m e : Z) : Q := (inject_Z m * 2 ^ e)%Q.

(** Bounds on the relative and on the absolute rounding error of
    binary64: [2^-52] and the smallest positive double. *)
Definition eps : Q := 1 # 4503599627370496.
Definition tiny : Q := (2 ^ (-1074))%Q.

(** The drawing calls of lines 19 to 74, evaluated. *)
Definition art_ops : list DrawOp :=
  Eval vm_compute in img_drawn (img (snd (artwork blank))).

(** The canvas once the glyph has been drawn with [font]. *)
Definition final_image (font : Font) : Image :=
  {| img_mode := "RGBA"; img_size := (SIZE, SIZE); img_color := (0, 0, 0, 0);
     img_drawn := art_ops ++ [glyph_op font] |}.

(** The chain of [try]/[except] read as a function of the host. *)
Definition first_font (h : Host) : exn + Font :=
  match truetype h SF_COMPACT 220 with
  | inr f => inr f
  | inl e =>
      if is_OSError e then
        match truetype h HELVETICA 220 with
        | inr f => inr f
        | inl e' => if is_OSError e' then inr (load_default h) else inl e'
        end
      else inl e
  end.

Definition font_events (h : Host) : list Event :=
  EvTruetype SF_COMPACT 220 ::
  match truetype h SF_COMPACT 220 with
  | inr _ => []
  | inl e =>
      if is_OSError e then
        EvTruetype HELVETICA 220 ::
        match truetype h HELVETICA 220 with
        | inr _ => []
        | inl e' => if is_OSError e' then [EvLoadDefault] else []
        end
      else []
  end.

(** Everything the run has done once the glyph is on the canvas. *)
Definition composing_events (h : Host) (font : Font) : list Event :=
  map EvDraw art_ops ++ font_events h ++ [EvDraw (glyph_op font)].

(** [os.path.dirname(OUT)] *)
Definition parent_dir (h : Host) : string := PosixPath.dirname (OUT h).

(** A file name: a path without a separator. *)
Fixpoint no_sep (s : string) : bool :=
  match s with
  | EmptyString => true
  | String c r => (negb (PosixPath.is_sep c) && no_sep r)%bool
  end.

(** A directory as [posixpath.join] continues it: followed by a separator
    unless it is empty or already ends with one. *)
Definition dir_prefix (d : string) : string :=
  if (String.eqb d "" || PosixPath.endswith_sep d)%bool then d
  else d ++ "/".

(** ** Sample hosts and fonts *)

(** A bitmap font: its boxes start at the origin. *)
Definition bitmap_font : Font :=
  {| font_face := "default"; font_getbbox := fun _ => (0, 0, 6, 11) |}.

(** An outline font: the box of a glyph starts at its left bearing and
    below the ascender line. *)
Definition helvetica_220 : Font :=
  {| font_face := "Helvetica"; font_getbbox := fun _ => (17, 47, 140, 205) |}.

(** No system font at all, a writable disk. *)
Definition linux_host : Host :=
  {| script_file := "/repo/desktop/scripts/generate-icon.py";
     truetype := fun _ _ => inl (OSError "cannot open resource");
     load_default := bitmap_font;
     os_makedirs := fun _ _ => None;
     image_save := fun _ _ _ => None |}.

(** Helvetica only. *)
Definition mac_host : Host :=
  {| script_file := "desktop/scripts/generate-icon.py";
     truetype := fun path _ =>
       if String.eqb path HELVETICA then inr helvetica_220
       else inl (OSError "cannot open resource");
     load_default := bitmap_font;
     os_makedirs := fun _ _ => None;
     image_save := fun _ _ _ => None |}.

(** No system font, and a read-only checkout. *)
Definition readonly_host : Host :=
  {| script_file := "/repo/desktop/scripts/generate-icon.py";
     truetype := fun _ _ => inl (OSError "cannot open resource");
     load_default := bitmap_font;
     os_makedirs := fun _ _ => Some (OSError "Read-only file system");
     image_save := fun _ _ _ => Some (OSError "Read-only file system") |}.

(** A Pillow built without FreeType: [truetype] raises [ImportError]. *)
Definition no_freetype_host : Host :=
  {| script_file := "/repo/desktop/scripts/generate-icon.py";
     truetype := fun _ _ => inl (OtherError "ImportError");
     load_default := bitmap_font;
     os_makedirs := fun _ _ => None;
     image_save := fun _ _ _ => None |}.

(** ** Vocabulary for the layout *)

Definition dot_centre (dot : Z * Z * Z) : Point :=
  let '(x, y, _) := dot in (x, y).

(** The two rounded rectangles of lines 21 to 33. *)
Definition background_box : Box := ((40, 40), (SIZE - 40, SIZE - 40)).

Definition background_rect : DrawOp :=
  RoundedRectangle background_box radius (Some bg_color) None 1.

Definition border_rect : DrawOp :=
  RoundedRectangle ((44, 44), (SIZE - 44, SIZE - 44)) (radius - 4)
                   None (Some (255, 255, 255, 20)) 2.

(** Everything the loop body draws for a dot whose highlight has radius
    [r // 2] and shift [3 * r // 20]. *)
Definition dot_drawing (dot : Z * Z * Z) : list DrawOp :=
  let '(x, y, r) := dot in
  glow_ellipses x y r
  ++ [core_ellipse dot;
      Ellipse (highlight_box x y (r / 2) (3 * r / 20)) accent_light].

Fixpoint consecutive {A : Type} (l : list A) : list (A * A) :=
  match l with
  | a :: (b :: _) as tl => (a, b) :: consecutive tl
  | _ => []
  end.

(** Straight lines between successive dot centres, with the given widths. *)
Definition trail (widths : list Z) : list DrawOp :=
  map (fun ab_w => Line [dot_centre (fst (fst ab_w));
                         dot_centre (snd (fst ab_w))] line_color (snd ab_w))
      (combine (consecutive dots) widths).

(** The polyline of [draw_chevron]. *)
Definition chevron (offset : Z) : DrawOp :=
  let cx := 770 + offset in
  let cy := 305 - offset / 2 in
  Line [(cx, cy - 15); (cx + 15, cy); (cx, cy + 15)] chevron_color 4.

(** A point of a rectangle with quarter-circle corners of radius [rad]. *)
Definition in_rounded_rect (box : Box) (rad : Z) (p : Point) : Prop :=
  let '((x0, y0), (x1, y1)) := box in
  let '(px, py) := p in
  x0 <= px <= x1 /\ y0 <= py <= y1 /\
  (px < x0 + rad -> py < y0 + rad ->
   (px - (x0 + rad)) ^ 2 + (py - (y0 + rad)) ^ 2 <= rad ^ 2) /\
  (x1 - rad < px -> py < y0 + rad ->
   (px - (x1 - rad)) ^ 2 + (py - (y0 + rad)) ^ 2 <= rad ^ 2) /\
  (px < x0 + rad -> y1 - rad < py ->
   (px - (x0 + rad)) ^ 2 + (py - (y1 - rad)) ^ 2 <= rad ^ 2) /\
  (x1 - rad < px -> y1 - rad < py ->
   (px - (x1 - rad)) ^ 2 + (py - (y1 - rad)) ^ 2 <= rad ^ 2).

Definition least (l : list Z) : Z := fold_right Z.min (hd 0 l) l.
Definition greatest (l : list Z) : Z := fold_right Z.max (hd 0 l) l.

(** The pixels a shape can touch: the region of a rounded rectangle or of
    an ellipse; for a polyline, the bounding box of its vertices widened by
    the stroke width.  The extent of a text depends on the font and is left
    out. *)
Definition covers (op : DrawOp) (p : Point) : Prop :=
  match op with
  | RoundedRectangle box rad _ _ _ => in_rounded_rect box rad p
  | Ellipse box _ => in_ellipse box p
  | Line pts _ w =>
      least (map fst pts) - w <= fst p <= greatest (map fst pts) + w /\
      least (map snd pts) - w <= snd p <= greatest (map snd pts) + w
  | Text _ _ _ _ => False
  end.

Definition is_font_event (ev : Event) : bool :=
  match ev with
  | EvTruetype _ _ | EvLoadDefault => true
  | _ => false
  end.

Definition is_print (ev : Event) : bool :=
  match ev with EvPrint _ => true | _ => false end.

(** The alpha formula at every distance 0 .. 30 from the core radius. *)
Definition band_alphas : list Z :=
  [40; 38; 37; 36; 34; 33; 32; 30; 29; 28; 26; 25; 24; 22; 21; 20; 18; 17;
   16; 14; 13; 12; 10; 9; 7; 6; 5; 3; 2; 1; 0].

(** No system font, and a disk without room for the image. *)
Definition full_disk_host : Host :=
  {| script_file := "generate-icon.py";
     truetype := fun _ _ => inl (OSError "cannot open resource");
     load_default := bitmap_font;
     os_makedirs := fun _ _ => None;
     image_save := fun _ _ _ => Some (OSError "No space left on device") |}.

(** * Properties *)

(** ** The glow loop *)

Section Glow.

Lemma py_range_glow (r : Z) :
  py_range (r + 30) r (-3) = map (fun d => r + d) glow_offsets.
Proof.
  unfold py_range, range_len.
  replace (0 <? -3) with false by reflexivity.
  replace (-3 <? 0) with true by reflexivity.
  replace (r <? r + 30) with true by (symmetry; apply Z.ltb_lt; lia).
  replace (r + 30 - r - 1) with 29 by lia.
  replace (Z.to_nat (29 / - -3 + 1)) with 10%nat by reflexivity.
  cbn [seq map glow_offsets].
  repeat (f_equal; try lia).
Qed.

(** The alpha depends on the distance to the core radius only. *)
Lemma glow_alpha_offset (r d : Z) : glow_alpha r (r + d) = glow_alpha 0 d.
Proof.
  unfold glow_alpha.
  replace (r + d - r) with (d - 0) by lia.
  reflexivity.
Qed.

Lemma glow_alpha_table :
  map (glow_alpha 0) glow_offsets = map inr glow_alphas.
Proof. vm_compute. reflexivity. Qed.

Lemma glow_alphas_of_dot (r : Z) :
  map (glow_alpha r) (py_range (r + 30) r (-3)) = map inr glow_alphas.
Proof.
  rewrite py_range_glow, map_map, <- glow_alpha_table.
  apply map_ext. intros d. apply glow_alpha_offset.
Qed.

(** Every radius of the loop with its distance and its alpha. *)
Lemma glow_radius_cases (r g : Z) :
  In g (py_range (r + 30) r (-3)) ->
  exists d a, In (d, a) (combine glow_offsets glow_alphas)
              /\ g = r + d /\ glow_alpha r g = inr a.
Proof.
  pose proof (glow_alphas_of_dot r) as T.
  rewrite py_range_glow in *. intros Hin.
  apply in_map_iff in Hin. destruct Hin as (d & <- & Hd).
  cbn [map glow_offsets glow_alphas] in T.
  injection T as T0 T1 T2 T3 T4 T5 T6 T7 T8 T9.
  cbn [In glow_offsets] in Hd.
  repeat (destruct Hd as [<- | Hd];
          [ eexists _, _; split;
            [ | split; [ reflexivity | eassumption ] ];
            cbn; tauto | ]).
  contradiction.
Qed.

End Glow.

(** ** Drawing calls and the world *)

Section Worlds.

Lemma draw_spec (op : DrawOp) (w : World) :
  draw op w = (inr tt, after_drawing w [op]).
Proof. reflexivity. Qed.

Lemma after_drawing_app (w : World) (a b : list DrawOp) :
  after_drawing (after_drawing w a) b = after_drawing w (a ++ b).
Proof.
  unfold after_drawing; cbn.
  now rewrite map_app, <- !app_assoc.
Qed.

Lemma after_drawing_nil (w : World) : after_drawing w [] = w.
Proof.
  destruct w as [[m s c d] t]; unfold after_drawing; cbn.
  now rewrite !app_nil_r.
Qed.

Lemma for_each_draws {A : Type} (body : A -> M unit)
      (f : A -> list DrawOp) (l : list A) :
  (forall a, In a l ->
             forall w, body a w = (inr tt, after_drawing w (f a))) ->
  forall w, for_each l body w = (inr tt, after_drawing w (flat_map f l)).
Proof.
  induction l as [|a l IH]; intros Hbody w; cbn [for_each flat_map].
  - unfold ret. now rewrite after_drawing_nil.
  - unfold bind. rewrite (Hbody a (or_introl eq_refl)).
    rewrite IH by (intros b Hb; apply Hbody; now right).
    now rewrite after_drawing_app.
Qed.

(** What the glow loop of a dot leaves on the canvas. *)
Lemma glow_loop_spec (x y r : Z) (w : World) :
  for_each (py_range (r + 30) r (-3)) (glow_circle x y r) w
  = (inr tt, after_drawing w (glow_ellipses x y r)).
Proof.
  pose proof (glow_alphas_of_dot r) as T.
  rewrite py_range_glow in *.
  cbn [map glow_offsets glow_alphas] in T.
  injection T as T0 T1 T2 T3 T4 T5 T6 T7 T8 T9.
  cbn [map glow_offsets for_each].
  unfold glow_circle, bind, lift, ret.
  rewrite T0, T1, T2, T3, T4, T5, T6, T7, T8, T9.
  rewrite !draw_spec, !after_drawing_app.
  reflexivity.
Qed.

Lemma artwork_blank : artwork blank = (inr tt, after_drawing blank art_ops).
Proof. vm_compute. reflexivity. Qed.

End Worlds.

(** ** Claims about the glow *)

(** C3.  For every core radius [r] (so for each of the three dots) and any
    two glow radii [g1 < g2] of its loop, both alphas are computed, the
    alpha at the larger radius [g2] is at most the alpha at [g1], and both
    lie between 0 and 40. *)
Theorem glow_alpha_monotone_bounded (r g1 g2 : Z) :
  In g1 (py_range (r + 30) r (-3)) ->
  In g2 (py_range (r + 30) r (-3)) ->
  g1 < g2 ->
  exists a1 a2,
    glow_alpha r g1 = inr a1 /\ glow_alpha r g2 = inr a2 /\
    a2 <= a1 /\ 0 <= a1 <= 40 /\ 0 <= a2 <= 40.
Proof.
  intros H1 H2 Hlt.
  destruct (glow_radius_cases r g1 H1) as (d1 & a1 & T1 & -> & E1).
  destruct (glow_radius_cases r g2 H2) as (d2 & a2 & T2 & -> & E2).
  exists a1, a2. split; [exact E1 | split; [exact E2 | ]].
  clear E1 E2 H1 H2.
  cbn [combine glow_offsets glow_alphas In] in T1, T2.
  repeat (destruct T1 as [T1 | T1]; [ injection T1 as <- <- | ]);
    try contradiction;
    repeat (destruct T2 as [T2 | T2]; [ injection T2 as <- <- | ]);
    try contradiction; lia.
Qed.

Lemma glow_alpha_monotone_bounded_witness :
  exists a1 a2,
    glow_alpha 70 73 = inr a1 /\ glow_alpha 70 100 = inr a2 /\
    a2 <= a1 /\ 0 <= a1 <= 40 /\ 0 <= a2 <= 40.
Proof.
  apply (glow_alpha_monotone_bounded 70 73 100).
  - vm_compute. tauto.
  - vm_compute. tauto.
  - lia.
Defined.

(** C4, as stated, has the fall-off the wrong way round: at radius 70 the
    outermost circle (radius 100) has alpha 0, the innermost (radius 73)
    has alpha 36, so the alpha does not go down as the circle approaches
    the core. *)
Lemma glow_alpha_rises_towards_core :
  glow_alpha 70 (70 + 30) = inr 0 /\
  glow_alpha 70 (70 + 3) = inr 36 /\
  ~ (forall g1 g2 a1 a2,
        In g1 (py_range (70 + 30) 70 (-3)) ->
        In g2 (py_range (70 + 30) 70 (-3)) ->
        g1 < g2 ->
        glow_alpha 70 g1 = inr a1 -> glow_alpha 70 g2 = inr a2 ->
        a1 <= a2).
Proof.
  assert (E0 : glow_alpha 70 (70 + 30) = inr 0) by (vm_compute; reflexivity).
  assert (E1 : glow_alpha 70 (70 + 3) = inr 36) by (vm_compute; reflexivity).
  split; [exact E0 | split; [exact E1 | ]].
  intros H.
  specialize (H (70 + 3) (70 + 30) 36 0).
  assert (36 <= 0); [ | lia ].
  apply H; try assumption; try lia; vm_compute; tauto.
Qed.

(** C4, amended.  For every dot [(x, y, r)] the glow loop draws ten circles
    around [(x, y)] with radii [r + 30] down to [r + 3]; each alpha is
    within one of the linear interpolation [40 * (1 - (g - r) / 30)], which
    is 0 at radius [r + 30] and rises to 36 at radius [r + 3]. *)
Theorem glow_linear_interpolation (x y r : Z) (w : World) :
  for_each (py_range (r + 30) r (-3)) (glow_circle x y r) w
  = (inr tt, after_drawing w (glow_ellipses x y r)) /\
  Forall (fun g => exists a,
              glow_alpha r g = inr a /\
              3 * a <= 4 * (30 - (g - r)) <= 3 * a + 3)
         (py_range (r + 30) r (-3)) /\
  glow_alpha r (r + 30) = inr 0 /\
  glow_alpha r (r + 3) = inr 36.
Proof.
  split; [apply glow_loop_spec | ].
  split.
  - apply Forall_forall. intros g Hg.
    destruct (glow_radius_cases r g Hg) as (d & a & T & -> & E).
    exists a. split; [exact E | ].
    cbn [combine glow_offsets glow_alphas In] in T.
    repeat (destruct T as [T | T]; [ injection T as <- <-; lia | ]).
    contradiction.
  - rewrite !glow_alpha_offset. split; vm_compute; reflexivity.
Qed.

(** C9, as stated, does not hold: the alphas of the dot of radius 70 are
    not 0, 4, 8, ..., 36. *)
Lemma glow_alphas_not_multiples_of_four :
  map (glow_alpha 70) (py_range (70 + 30) 70 (-3))
  <> map inr [0; 4; 8; 12; 16; 20; 24; 28; 32; 36].
Proof.
  rewrite glow_alphas_of_dot. cbn. intros H. discriminate H.
Qed.

(** C9, amended.  For every dot [(x, y, r)] the glow loop draws exactly
    ten circles, with radii [r + 30], [r + 27], ..., [r + 3] and never [r];
    the alphas are 0, 3, 7, 12, 16, 20, 24, 28, 32, 36 (binary floating
    point puts [1 - 27/30] and [1 - 24/30] just below 0.1 and 0.2), so the
    largest alpha used is 36, below the nominal 40. *)
Theorem glow_loop_exact (x y r : Z) (w : World) :
  py_range (r + 30) r (-3)
  = [r + 30; r + 27; r + 24; r + 21; r + 18; r + 15; r + 12; r + 9; r + 6;
     r + 3] /\
  ~ In r (py_range (r + 30) r (-3)) /\
  map (glow_alpha r) (py_range (r + 30) r (-3))
  = map inr [0; 3; 7; 12; 16; 20; 24; 28; 32; 36] /\
  for_each (py_range (r + 30) r (-3)) (glow_circle x y r) w
  = (inr tt, after_drawing w (glow_ellipses x y r)) /\
  List.length (glow_ellipses x y r) = 10%nat /\
  Forall (fun a => 0 <= a <= 36) glow_alphas /\
  36 < 40.
Proof.
  split; [apply py_range_glow | ].
  split.
  { rewrite py_range_glow. cbn. intros H.
    repeat (destruct H as [H | H]; [ lia | ]). exact H. }
  split; [apply glow_alphas_of_dot | ].
  split; [apply glow_loop_spec | ].
  split; [reflexivity | ].
  split; [ | lia ].
  unfold glow_alphas. repeat constructor; lia.
Qed.

(** ** The run as a function of the host *)

Section Run.

Variable h : Host.

Lemma resolve_font_spec (w : World) :
  resolve_font h w
  = (first_font h, {| img := img w; trace := trace w ++ font_events h |}).
Proof.
  unfold resolve_font, try_except_OSError, load_truetype, bind, emit, lift,
    ret, first_font, font_events.
  cbn [img trace].
  destruct (truetype h SF_COMPACT 220) as [e1|f1];
    [ destruct (is_OSError e1);
      [ destruct (truetype h HELVETICA 220) as [e2|f2];
        [ destruct (is_OSError e2) | ] | ] | ];
    cbn [img trace]; rewrite <- ?app_assoc; reflexivity.
Qed.

Lemma resolved_font_spec : resolved_font h = first_font h.
Proof. unfold resolved_font. now rewrite resolve_font_spec. Qed.

Lemma run_spec :
  run h =
  match first_font h with
  | inl e =>
      (inl e, {| img := img (after_drawing blank art_ops);
                 trace := map EvDraw art_ops ++ font_events h |})
  | inr font =>
      let i := final_image font in
      let pre := composing_events h font in
      match os_makedirs h (parent_dir h) true with
      | Some e =>
          (inl e, {| img := i;
                     trace := pre ++ [EvMakedirs (parent_dir h) true] |})
      | None =>
          match image_save h i (OUT h) "PNG" with
          | Some e =>
              (inl e, {| img := i;
                         trace := pre ++ [EvMakedirs (parent_dir h) true;
                                          EvSave i (OUT h) "PNG"] |})
          | None =>
              (inr tt, {| img := i;
                          trace := pre ++ [EvMakedirs (parent_dir h) true;
                                           EvSave i (OUT h) "PNG";
                                           EvPrint (confirmation h)] |})
          end
      end
  end.
Proof.
  unfold run, script. unfold bind at 1. rewrite artwork_blank.
  unfold finish. unfold bind at 1. rewrite resolve_font_spec.
  destruct (first_font h) as [e|font]; [reflexivity | ].
  unfold draw_glyph, makedirs, save_image, of_outcome, bind, emit, lift,
    draw, composing_events, final_image, parent_dir.
  cbn [img trace after_drawing blank Image_new img_mode img_size img_color
       img_drawn app].
  destruct (os_makedirs h (PosixPath.dirname (OUT h)) true) as [e|];
    [ | destruct (image_save h _ (OUT h) "PNG") as [e|] ];
    cbn [img trace]; rewrite <- ?app_assoc; reflexivity.
Qed.

End Run.

(** ** Paths *)

Module PathFacts.
Import PosixPath.

Lemma append_empty_r (s : string) : s ++ "" = s.
Proof. induction s as [|c s IH]; cbn; [reflexivity | now rewrite IH]. Qed.

Lemma append_assoc (s t u : string) : (s ++ t) ++ u = s ++ (t ++ u).
Proof. induction s as [|c s IH]; cbn; [reflexivity | now rewrite IH]. Qed.

Lemma endswith_sep_append (s : string) (c : ascii) (t : string) :
  endswith_sep (s ++ String c t) = endswith_sep (String c t).
Proof.
  induction s as [|a s IH]; [reflexivity | ].
  change (String a s ++ String c t) with (String a (s ++ String c t)).
  cbn [endswith_sep]. rewrite IH.
  destruct s; reflexivity.
Qed.

Lemma eqb_append_nonempty (s : string) (c : ascii) (t : string) :
  String.eqb (s ++ String c t) "" = false.
Proof. destruct s; reflexivity. Qed.

(** Joining a component that does not start with a separator. *)
Lemma join_step_relative (path : string) (c : ascii) (t : string) :
  is_sep c = false ->
  join_step path (String c t) = dir_prefix path ++ String c t.
Proof.
  intros Hc. unfold join_step, dir_prefix. cbn [startswith_sep].
  rewrite Hc.
  destruct (String.eqb path "" || endswith_sep path)%bool;
    [reflexivity | ].
  now rewrite append_assoc.
Qed.

Lemma dir_prefix_after_name (s : string) (c : ascii) (t : string) :
  endswith_sep (String c t) = false ->
  dir_prefix (s ++ String c t) = s ++ String c t ++ "/".
Proof.
  intros H. unfold dir_prefix.
  rewrite eqb_append_nonempty, endswith_sep_append, H. cbn [orb].
  now rewrite append_assoc.
Qed.

Lemma OUT_spec (h : Host) :
  OUT h = dir_prefix (dirname (script_file h)) ++ "../assets/icon.png".
Proof.
  unfold OUT, join. cbn [fold_left].
  rewrite (join_step_relative _ "."%char "." eq_refl).
  rewrite (join_step_relative _ "a"%char "ssets" eq_refl).
  rewrite (dir_prefix_after_name _ "."%char "." eq_refl).
  rewrite (join_step_relative _ "i"%char "con.png" eq_refl).
  rewrite append_assoc.
  rewrite (dir_prefix_after_name _ "."%char "./assets" eq_refl).
  rewrite !append_assoc. reflexivity.
Qed.

Lemma upto_last_sep_name (t : string) :
  no_sep t = true -> upto_last_sep t = "".
Proof.
  induction t as [|c t IH]; [reflexivity | ].
  cbn [no_sep upto_last_sep]. intros H.
  apply andb_prop in H. destruct H as [Hc Ht].
  rewrite (IH Ht). apply negb_true_iff in Hc. now rewrite Hc.
Qed.

Lemma upto_last_sep_append (s t : string) :
  no_sep t = true ->
  upto_last_sep (s ++ String sep t) = s ++ String sep "".
Proof.
  intros Ht. induction s as [|c s IH].
  - cbn [append upto_last_sep]. now rewrite (upto_last_sep_name t Ht).
  - change (String c s ++ String sep t) with (String c (s ++ String sep t)).
    cbn [upto_last_sep]. rewrite IH.
    destruct s; reflexivity.
Qed.

Lemma rstrip_sep_append_sep (s : string) :
  rstrip_sep (s ++ String sep "") = rstrip_sep s.
Proof.
  induction s as [|c s IH]; [reflexivity | ].
  change (String c s ++ String sep "") with (String c (s ++ String sep "")).
  cbn [rstrip_sep]. now rewrite IH.
Qed.

Lemma rstrip_sep_name (s : string) (c : ascii) :
  is_sep c = false ->
  rstrip_sep (s ++ String c "") = s ++ String c "".
Proof.
  intros Hc. induction s as [|a s IH].
  - cbn. now rewrite Hc.
  - change (String a s ++ String c "") with (String a (s ++ String c "")).
    cbn [rstrip_sep]. rewrite IH. destruct s; reflexivity.
Qed.

Lemma all_sep_append (s : string) (c : ascii) (t : string) :
  is_sep c = false -> all_sep (s ++ String c t) = false.
Proof.
  intros Hc. induction s as [|a s IH].
  - cbn. now rewrite Hc.
  - change (String a s ++ String c t) with (String a (s ++ String c t)).
    cbn [all_sep]. rewrite IH. apply andb_false_r.
Qed.

(** The directory of [s ++ c ++ "/" ++ name] is [s ++ c] when [c] is not
    a separator and [name] contains none. *)
Lemma dirname_of_file (s : string) (c : ascii) (name : string) :
  is_sep c = false -> no_sep name = true ->
  dirname (s ++ String c (String sep name)) = s ++ String c "".
Proof.
  intros Hc Hn. unfold dirname.
  replace (s ++ String c (String sep name))
    with ((s ++ String c "") ++ String sep name)
    by (now rewrite append_assoc).
  rewrite (upto_last_sep_append _ _ Hn).
  rewrite append_assoc. cbn [append].
  rewrite eqb_append_nonempty, (all_sep_append _ c _ Hc). cbn [negb andb].
  replace (s ++ String c (String sep ""))
    with ((s ++ String c "") ++ String sep "")
    by (now rewrite append_assoc).
  rewrite rstrip_sep_append_sep. now apply rstrip_sep_name.
Qed.

Lemma parent_dir_spec (h : Host) :
  parent_dir h = dir_prefix (dirname (script_file h)) ++ "../assets".
Proof.
  unfold parent_dir. rewrite OUT_spec.
  replace (dir_prefix (dirname (script_file h)) ++ "../assets/icon.png")
    with ((dir_prefix (dirname (script_file h)) ++ "../asset")
            ++ String "s"%char (String sep "icon.png"))
    by (now rewrite append_assoc).
  rewrite (dirname_of_file _ "s"%char "icon.png" eq_refl eq_refl).
  now rewrite append_assoc.
Qed.

End PathFacts.

(** ** Claims about the run *)

Section RunFacts.

Variable h : Host.

Lemma font_events_no_filesystem :
  forallb (fun ev => negb (is_filesystem ev)) (font_events h) = true.
Proof.
  unfold font_events.
  destruct (truetype h SF_COMPACT 220) as [e1|f1];
    [ destruct (is_OSError e1);
      [ destruct (truetype h HELVETICA 220) as [e2|f2];
        [ destruct (is_OSError e2) | ] | ] | ];
    reflexivity.
Qed.

Lemma draws_no_filesystem (ops : list DrawOp) :
  forallb (fun ev => negb (is_filesystem ev)) (map EvDraw ops) = true.
Proof. induction ops as [|op ops IH]; [reflexivity | exact IH]. Qed.

Lemma composing_events_no_filesystem (font : Font) :
  forallb (fun ev => negb (is_filesystem ev)) (composing_events h font)
  = true.
Proof.
  unfold composing_events.
  now rewrite !forallb_app, draws_no_filesystem, font_events_no_filesystem.
Qed.

Lemma no_filesystem_no_save (evs : list Event) :
  forallb (fun ev => negb (is_filesystem ev)) evs = true ->
  filter is_save evs = [].
Proof.
  induction evs as [|ev evs IH]; [reflexivity | ].
  cbn [forallb filter]. intros H.
  apply andb_prop in H. destruct H as [Hev Hevs].
  rewrite (IH Hevs). destruct ev; try reflexivity; discriminate Hev.
Qed.

Lemma OUT_in_parent_dir : OUT h = parent_dir h ++ "/icon.png".
Proof.
  rewrite PathFacts.OUT_spec, PathFacts.parent_dir_spec.
  rewrite PathFacts.append_assoc. reflexivity.
Qed.

(** The image is the same whichever way the run ends after the font. *)
Lemma composed_spec :
  composed h =
  match first_font h with
  | inl _ => img (after_drawing blank art_ops)
  | inr font => final_image font
  end.
Proof.
  unfold composed. rewrite run_spec.
  destruct (first_font h) as [e|font]; [reflexivity | ].
  cbv zeta.
  destruct (os_makedirs h (parent_dir h) true);
    [ | destruct (image_save h (final_image font) (OUT h) "PNG") ];
    reflexivity.
Qed.

(** A run that returns normally went through every step. *)
Lemma successful_run_events :
  outcome h = inr tt ->
  exists font,
    first_font h = inr font /\
    composed h = final_image font /\
    events h = (composing_events h font
                ++ [EvMakedirs (parent_dir h) true;
                    EvSave (final_image font) (OUT h) "PNG";
                    EvPrint (confirmation h)])%list.
Proof.
  unfold outcome, events. rewrite composed_spec, run_spec.
  destruct (first_font h) as [e|font]; [discriminate | ].
  cbv zeta.
  destruct (os_makedirs h (parent_dir h) true) as [e|]; [discriminate | ].
  destruct (image_save h (final_image font) (OUT h) "PNG") as [e|];
    [discriminate | ].
  intros _. exists font. repeat split.
Qed.

Lemma successful_run_saved :
  outcome h = inr tt ->
  filter is_save (events h) = [EvSave (composed h) (OUT h) "PNG"].
Proof.
  intros O. destruct (successful_run_events O) as (font & _ & -> & ->).
  rewrite filter_app.
  rewrite (no_filesystem_no_save _ (composing_events_no_filesystem font)).
  reflexivity.
Qed.

End RunFacts.

(** C1.  In every successful run exactly one image is saved: the composed
    canvas, in mode RGBA and of size 1024 x 1024, in PNG format, at
    [OUT = <script directory>/../assets/icon.png]; the call that creates
    the parent directory of that path (with [exist_ok]) comes just before
    the save and is the first file-system call of the run. *)
Theorem successful_run_saves_icon (h : Host) :
  outcome h = inr tt ->
  filter is_save (events h) = [EvSave (composed h) (OUT h) "PNG"] /\
  img_mode (composed h) = "RGBA" /\
  img_size (composed h) = (1024, 1024) /\
  OUT h = PosixPath.join (PosixPath.dirname (script_file h))
                         [".."; "assets"; "icon.png"] /\
  OUT h = dir_prefix (PosixPath.dirname (script_file h))
          ++ "../assets/icon.png" /\
  OUT h = parent_dir h ++ "/icon.png" /\
  exists before,
    forallb (fun ev => negb (is_filesystem ev)) before = true /\
    events h = (before ++ [EvMakedirs (parent_dir h) true;
                           EvSave (composed h) (OUT h) "PNG";
                           EvPrint (confirmation h)])%list.
Proof.
  intros O.
  split; [now apply successful_run_saved | ].
  destruct (successful_run_events h O) as (font & _ & C & E).
  rewrite C at 1 2.
  split; [reflexivity | ].
  split; [reflexivity | ].
  split; [reflexivity | ].
  split; [apply PathFacts.OUT_spec | ].
  split; [apply OUT_in_parent_dir | ].
  exists (composing_events h font).
  split; [apply composing_events_no_filesystem | ].
  now rewrite C.
Qed.

Lemma successful_run_saves_icon_witness :
  filter is_save (events linux_host)
  = [EvSave (composed linux_host)
            "/repo/desktop/scripts/../assets/icon.png" "PNG"] /\
  img_size (composed linux_host) = (1024, 1024).
Proof.
  destruct (successful_run_saves_icon linux_host) as (S & _ & Z & _).
  - vm_compute. reflexivity.
  - split; [exact S | exact Z].
Defined.

(** C2, as stated, does not hold for every environment: where Pillow has
    no FreeType support, [truetype] raises [ImportError], which is not an
    [OSError]; the chain lets it through and the run ends with it. *)
Lemma font_resolution_can_raise :
  resolved_font no_freetype_host = inl (OtherError "ImportError") /\
  outcome no_freetype_host = inl (OtherError "ImportError") /\
  ~ (forall h : Host, exists font, resolved_font h = inr font).
Proof.
  assert (E : resolved_font no_freetype_host = inl (OtherError "ImportError"))
    by reflexivity.
  split; [exact E | split ].
  - vm_compute. reflexivity.
  - intros H. destruct (H no_freetype_host) as [font Hfont].
    rewrite E in Hfont. discriminate Hfont.
Qed.

(** C2, amended.  On every host where a font candidate that fails to load
    fails with an [OSError] (or [IOError]), font resolution raises nothing:
    the candidates are tried in order, the first that loads is used, and
    the built-in default font when none does; the glyph is then drawn with
    that font on the 1024 x 1024 RGBA canvas, and the run can only end
    with an error of [os.makedirs] or of [img.save]. *)
Theorem font_resolution_never_raises (h : Host) :
  (forall path size e, truetype h path size = inl e -> is_OSError e = true) ->
  let font :=
    match truetype h SF_COMPACT 220 with
    | inr f => f
    | inl _ =>
        match truetype h HELVETICA 220 with
        | inr f => f
        | inl _ => load_default h
        end
    end in
  resolved_font h = inr font /\
  composed h = final_image font /\
  img_mode (composed h) = "RGBA" /\
  img_size (composed h) = (1024, 1024) /\
  outcome h =
    match os_makedirs h (parent_dir h) true with
    | Some e => inl e
    | None =>
        match image_save h (composed h) (OUT h) "PNG" with
        | Some e => inl e
        | None => inr tt
        end
    end.
Proof.
  intros Hos font.
  assert (F : first_font h = inr font).
  { unfold first_font, font.
    destruct (truetype h SF_COMPACT 220) as [e1|f1] eqn:E1; [ | reflexivity].
    rewrite (Hos _ _ _ E1).
    destruct (truetype h HELVETICA 220) as [e2|f2] eqn:E2; [ | reflexivity].
    now rewrite (Hos _ _ _ E2). }
  assert (C : composed h = final_image font)
    by (rewrite composed_spec; now rewrite F).
  split; [now rewrite resolved_font_spec | ].
  split; [exact C | ].
  rewrite C. split; [reflexivity | split; [reflexivity | ]].
  unfold outcome. rewrite run_spec, F. cbv zeta.
  destruct (os_makedirs h (parent_dir h) true) as [e|]; [reflexivity | ].
  destruct (image_save h (final_image font) (OUT h) "PNG") as [e|];
    reflexivity.
Qed.

Lemma font_resolution_never_raises_witness :
  resolved_font linux_host = inr bitmap_font /\
  resolved_font mac_host = inr helvetica_220 /\
  outcome linux_host = inr tt.
Proof.
  assert (L : forall path size e,
             truetype linux_host path size = inl e -> is_OSError e = true).
  { intros path size e H. injection H as <-. reflexivity. }
  assert (A : forall path size e,
             truetype mac_host path size = inl e -> is_OSError e = true).
  { intros path size e. cbn. destruct (String.eqb path HELVETICA).
    - discriminate.
    - intros H. injection H as <-. reflexivity. }
  destruct (font_resolution_never_raises linux_host L) as (R1 & _ & _ & _ & O).
  destruct (font_resolution_never_raises mac_host A) as (R2 & _).
  split; [exact R1 | split; [exact R2 | exact O]].
Defined.

(** C5.  Every run draws exactly three ellipses in the opaque accent
    colour, the cores of the three dots, in the order of the dot list:
    around (300, 680) with radius 70, around (512, 512) with radius 55 and
    around (700, 360) with radius 40; the fill has alpha 255 and the radii
    are strictly decreasing. *)
Theorem three_opaque_cores (h : Host) :
  filter is_core (img_drawn (composed h)) = map core_ellipse dots /\
  map core_ellipse dots
  = [ Ellipse (circle_box 300 680 70) accent;
      Ellipse (circle_box 512 512 55) accent;
      Ellipse (circle_box 700 360 40) accent ] /\
  alpha_of accent = 255 /\
  map dot_radius dots = [70; 55; 40] /\
  70 > 55 /\ 55 > 40.
Proof.
  split.
  - rewrite composed_spec.
    destruct (first_font h) as [e|font]; [reflexivity | ].
    unfold final_image. cbn [img_drawn]. rewrite filter_app. reflexivity.
  - repeat split; reflexivity.
Qed.

(** C6.  Two runs whose font chains end with the same font compose the
    same image, whatever else differs between their hosts (which
    candidates failed, how the file system answers); so any encoding of
    the image gives the same bytes, and from the same script location two
    successful runs save the same image at the same path in the same
    format. *)
Theorem same_font_same_image (h1 h2 : Host) (font : Font) :
  resolved_font h1 = inr font ->
  resolved_font h2 = inr font ->
  composed h1 = composed h2 /\
  (forall encode : Image -> list Byte.byte,
      encode (composed h1) = encode (composed h2)) /\
  (script_file h1 = script_file h2 ->
   outcome h1 = inr tt -> outcome h2 = inr tt ->
   filter is_save (events h1) = filter is_save (events h2)).
Proof.
  rewrite !resolved_font_spec. intros F1 F2.
  assert (C : composed h1 = composed h2)
    by (rewrite !composed_spec, F1, F2; reflexivity).
  split; [exact C | split].
  - intros encode. now rewrite C.
  - intros Hfile O1 O2.
    rewrite (successful_run_saved h1 O1), (successful_run_saved h2 O2), C.
    unfold OUT. now rewrite Hfile.
Qed.

Lemma same_font_same_image_witness :
  resolved_font linux_host = inr bitmap_font /\
  resolved_font readonly_host = inr bitmap_font /\
  outcome readonly_host = inl (OSError "Read-only file system") /\
  composed linux_host = composed readonly_host.
Proof.
  assert (R1 : resolved_font linux_host = inr bitmap_font) by reflexivity.
  assert (R2 : resolved_font readonly_host = inr bitmap_font) by reflexivity.
  destruct (same_font_same_image linux_host readonly_host bitmap_font R1 R2)
    as (C & _).
  split; [exact R1 | split; [exact R2 | split; [ | exact C]]].
  vm_compute. reflexivity.
Defined.

(** X12.  In every run all drawing comes before any file-system call, at
    most one image is saved, and it is the fully composed one. *)
Lemma drawing_precedes_filesystem (h : Host) :
  exists before after,
    events h = (before ++ after)%list /\
    forallb (fun ev => negb (is_filesystem ev)) before = true /\
    forallb (fun ev => negb (is_draw ev)) after = true /\
    (List.length (filter is_save after) <= 1)%nat /\
    forall i path format,
      In (EvSave i path format) after -> i = composed h.
Proof.
  unfold events. rewrite composed_spec, run_spec.
  destruct (first_font h) as [e|font].
  - exists (map EvDraw art_ops ++ font_events h)%list, [].
    cbn [snd trace]. rewrite app_nil_r, forallb_app.
    rewrite draws_no_filesystem, font_events_no_filesystem.
    split; [reflexivity | ].
    split; [reflexivity | ].
    split; [reflexivity | ].
    split; [cbn; lia | ].
    intros i path format [].
  - cbv zeta.
    destruct (os_makedirs h (parent_dir h) true) as [e|];
      [ | destruct (image_save h (final_image font) (OUT h) "PNG") as [e|] ];
      cbn [snd trace];
      eexists (composing_events h font), _;
      (split; [reflexivity | ]);
      (split; [apply composing_events_no_filesystem | ]);
      (split; [reflexivity | ]);
      (split; [cbn; lia | ]);
      intros i path format Hin; cbn in Hin;
      repeat (destruct Hin as [Hin | Hin];
              [ try discriminate Hin; injection Hin as <- _ _; reflexivity
              | ]);
      contradiction.
Qed.

(** ** The glyph *)

(** C8, as stated, does not hold for every font: an outline font measures
    the box of "B" with a left bearing and a top offset, the script
    subtracts only the width and height, and the glyph ends 17 pixels right
    of and 47 pixels below the margins. *)
Lemma glyph_overshoots_margins :
  resolved_font mac_host = inr helvetica_220 /\
  In (Text (741, 726) "B" b_color helvetica_220)
     (img_drawn (composed mac_host)) /\
  textbbox (741, 726) "B" helvetica_220 = (758, 773, 881, 931) /\
  ~ (forall font : Font,
        let '(_, _, x1, y1) := textbbox (glyph_xy font) "B" font in
        x1 = SIZE - 160 /\ y1 = SIZE - 140).
Proof.
  split; [reflexivity | split; [ | split; [reflexivity | ]]].
  - rewrite composed_spec.
    change (first_font mac_host) with (@inr exn Font helvetica_220).
    unfold final_image. cbn [img_drawn]. apply in_or_app. right.
    left. reflexivity.
  - intros H. specialize (H helvetica_220). vm_compute in H.
    destruct H as [H _]. discriminate H.
Qed.

(** C8, amended.  For every font, with [(l, t, r, b)] the box it measures
    for "B" at the origin, the glyph drawn at [glyph_xy] covers a box of
    the measured width and height whose right edge is [l] pixels right of
    the 160-pixel margin and whose bottom edge is [t] pixels below the
    140-pixel margin of the 1024-pixel canvas; it ends exactly at the
    margins when (and only when) the measured box starts at the origin. *)
Theorem glyph_extent (font : Font) :
  let '(l, t, r, b) := font_getbbox font "B" in
  glyph_xy font = (SIZE - (r - l) - 160, SIZE - (b - t) - 140) /\
  textbbox (glyph_xy font) "B" font
  = (SIZE - 160 - (r - l) + l, SIZE - 140 - (b - t) + t,
     SIZE - 160 + l, SIZE - 140 + t) /\
  (let '(_, _, x1, y1) := textbbox (glyph_xy font) "B" font in
   (x1 = SIZE - 160 /\ y1 = SIZE - 140) <-> (l = 0 /\ t = 0)).
Proof.
  unfold glyph_xy, textbbox.
  destruct (font_getbbox font "B") as [[[l t] r] b].
  cbn [fst snd]. rewrite !Z.add_0_r.
  split; [reflexivity | ].
  split; [ | lia ].
  repeat match goal with
         | |- (_, _) = (_, _) => apply f_equal2
         end; lia.
Qed.

(** ** Binary64 rounding *)

Module FloatFacts.
Import PyFloat.

Lemma digits2_bounds (p : positive) :
  2 ^ (Zpos (digits2_pos p) - 1) <= Zpos p < 2 ^ Zpos (digits2_pos p).
Proof.
  induction p as [p IH | p IH | ]; cbn [digits2_pos].
  - rewrite Pos2Z.inj_succ.
    replace (Z.succ (Zpos (digits2_pos p)) - 1)
      with (Z.succ (Zpos (digits2_pos p) - 1)) by lia.
    rewrite !Z.pow_succ_r by lia. lia.
  - rewrite Pos2Z.inj_succ.
    replace (Z.succ (Zpos (digits2_pos p)) - 1)
      with (Z.succ (Zpos (digits2_pos p) - 1)) by lia.
    rewrite !Z.pow_succ_r by lia. lia.
  - cbn. lia.
Qed.

Lemma digits2_le (p : positive) (k : Z) :
  Zpos p < 2 ^ k -> Zpos (digits2_pos p) <= k.
Proof.
  intros H. destruct (digits2_bounds p) as [L _].
  destruct (Z.le_gt_cases (Zpos (digits2_pos p)) k) as [|G]; [assumption | ].
  exfalso.
  assert (2 ^ k <= 2 ^ (Zpos (digits2_pos p) - 1)).
  { apply Z.pow_le_mono_r; lia. }
  lia.
Qed.

Lemma shr_1_m (mrs : shr_record) :
  0 <= shr_m mrs -> shr_m (shr_1 mrs) = shr_m mrs / 2.
Proof.
  destruct mrs as [m r s]. cbn [shr_m]. intros Hm.
  rewrite <- Z.div2_div.
  destruct m as [|[p|p|]|p]; try reflexivity. lia.
Qed.

Lemma iter_shr_1_m (n : positive) :
  forall mrs, 0 <= shr_m mrs ->
              shr_m (iter_pos shr_1 n mrs) = shr_m mrs / 2 ^ Zpos n.
Proof.
  induction n as [n IH | n IH | ]; intros mrs Hm; cbn [iter_pos].
  - assert (H1 : 0 <= shr_m (shr_1 mrs))
      by (rewrite shr_1_m by lia; apply Z.div_pos; lia).
    assert (H2 : 0 <= shr_m (iter_pos shr_1 n (shr_1 mrs)))
      by (rewrite IH by lia; apply Z.div_pos; lia).
    rewrite IH, IH, shr_1_m by lia.
    rewrite !Z.div_div by lia.
    f_equal.
    replace (Zpos n~1) with (1 + Zpos n + Zpos n) by lia.
    rewrite !Z.pow_add_r by lia. lia.
  - assert (H2 : 0 <= shr_m (iter_pos shr_1 n mrs))
      by (rewrite IH by lia; apply Z.div_pos; lia).
    rewrite IH, IH by lia.
    rewrite !Z.div_div by lia.
    f_equal.
    replace (Zpos n~0) with (Zpos n + Zpos n) by lia.
    rewrite !Z.pow_add_r by lia. lia.
  - rewrite shr_1_m by lia. reflexivity.
Qed.

Lemma shr_spec (mrs : shr_record) (e n : Z) :
  0 <= shr_m mrs ->
  (n <= 0 /\ shr mrs e n = (mrs, e)) \/
  (0 < n /\ exists mrs', shr mrs e n = (mrs', e + n)
                         /\ shr_m mrs' = shr_m mrs / 2 ^ n).
Proof.
  intros Hm. destruct n as [|p|p].
  - left. split; [lia | reflexivity].
  - right. split; [lia | ].
    eexists. split; [reflexivity | ]. now apply iter_shr_1_m.
  - left. split; [lia | reflexivity].
Qed.

Lemma round_nearest_even_bounds (m : Z) (l : location) :
  m <= round_nearest_even m l <= m + 1.
Proof.
  unfold round_nearest_even.
  destruct l as [|[| |]]; try lia. destruct (Z.even m); lia.
Qed.


(** *** Values *)

Lemma pow2_pos (e : Z) : (0 < 2 ^ e)%Q.
Proof. apply Qpower_0_lt. reflexivity. Qed.

Lemma pow2_add (a b : Z) : (2 ^ (a + b) == 2 ^ a * 2 ^ b)%Q.
Proof. apply Qpower_plus. discriminate. Qed.

Lemma pow2_inject (n : Z) : 0 <= n -> (inject_Z (2 ^ n) == 2 ^ n)%Q.
Proof. intros H. now rewrite Zpower_Qpower. Qed.

Lemma dyadic_mono (m m' e : Z) :
  m <= m' -> (dyadic m e <= dyadic m' e)%Q.
Proof.
  intros H. unfold dyadic.
  apply Qmult_le_compat_r.
  - now rewrite <- Zle_Qle.
  - apply Qlt_le_weak, pow2_pos.
Qed.

Lemma dyadic_succ (m e : Z) : (dyadic (m + 1) e == dyadic m e + 2 ^ e)%Q.
Proof. unfold dyadic. rewrite inject_Z_plus. ring. Qed.

Lemma dyadic_shift_le (m e n : Z) :
  0 <= m -> 0 < n -> (dyadic (m / 2 ^ n) (e + n) <= dyadic m e)%Q.
Proof.
  intros Hm Hn. unfold dyadic.
  rewrite pow2_add, <- (pow2_inject n) by lia.
  setoid_replace (inject_Z (m / 2 ^ n) * (2 ^ e * inject_Z (2 ^ n)))%Q
    with (inject_Z (m / 2 ^ n * 2 ^ n) * 2 ^ e)%Q
    by (rewrite inject_Z_mult; ring).
  apply Qmult_le_compat_r.
  - rewrite <- Zle_Qle.
    pose proof (Z.mul_div_le m (2 ^ n)).
    assert (0 < 2 ^ n) by (apply Z.pow_pos_nonneg; lia). lia.
  - apply Qlt_le_weak, pow2_pos.
Qed.

Lemma dyadic_nonneg (m e : Z) : 0 <= m -> (0 <= dyadic m e)%Q.
Proof.
  intros H. unfold dyadic. apply Qmult_le_0_compat.
  - now rewrite <- (Zle_Qle 0).
  - apply Qlt_le_weak, pow2_pos.
Qed.

Lemma dyadic_mul (m1 e1 m2 e2 : Z) :
  (dyadic (m1 * m2) (e1 + e2) == dyadic m1 e1 * dyadic m2 e2)%Q.
Proof. unfold dyadic. rewrite inject_Z_mult, pow2_add. ring. Qed.

(** *** Rounding a positive mantissa *)

Lemma fexp_spec (e : Z) : fexp prec emax e = Z.max (e - 53) (-1074).
Proof. reflexivity. Qed.

Lemma Zdigits2_le (m k : Z) : 0 <= m < 2 ^ k -> 0 <= k -> Zdigits2 m <= k.
Proof.
  intros [H0 H1] Hk. destruct m as [|p|p]; cbn [Zdigits2]; try lia.
  now apply digits2_le.
Qed.

Lemma round_aux_structure (sx : bool) (p : positive) (ex : Z) :
  let fe := Z.max (Zpos (digits2_pos p) + ex - 53) (-1074) in
  exists m3 e3,
    binary_round_aux prec emax sx (Zpos p) ex loc_Exact
    = match m3 with
      | Z0 => S754_zero sx
      | Zpos m =>
          if e3 <=? 971 then S754_finite sx m e3 else S754_infinity sx
      | Zneg _ => S754_nan
      end /\
    0 <= m3 <= 2 ^ 53 /\
    e3 <= Z.max ex fe + 1 /\
    (dyadic m3 e3
     <= dyadic (Zpos p) ex + (if ex <? fe then 2 ^ fe else 0))%Q.
Proof.
  intros fe.
  pose proof (digits2_bounds p) as [Dlo Dhi].
  set (d := Zpos (digits2_pos p)) in *.
  unfold binary_round_aux, shr_fexp.
  cbn [Zdigits2]. fold d. rewrite fexp_spec.
  replace (d + ex - 53) with (d + ex - 53) by reflexivity. fold fe.
  cbn [shr_record_of_loc].
  assert (P0 : 0 <= shr_m (Build_shr_record (Zpos p) false false))
    by (cbn; lia).
  destruct (shr_spec _ ex (fe - ex) P0)
    as [[Hn E] | [Hn (mrs1 & E & Hm1)]]; rewrite E; clear E.
  - (* no shift: the product is exact *)
    cbn [shr_m loc_of_shr_record round_nearest_even Zdigits2].
    fold d. rewrite fexp_spec. fold fe. cbn [shr_record_of_loc].
    destruct (shr_spec _ ex (fe - ex) P0) as [[_ E] | [Hn' _]]; [ | lia].
    rewrite E. cbn [shr_m].
    exists (Zpos p), ex. change (emax - prec) with 971.
    split; [reflexivity | ].
    assert (Hd : d <= 53) by lia.
    assert (2 ^ d <= 2 ^ 53) by (apply Z.pow_le_mono_r; lia).
    split; [lia | split; [lia | ]].
    replace (ex <? fe) with false by (symmetry; apply Z.ltb_ge; lia).
    rewrite Qplus_0_r. apply Qle_refl.
  - (* shift by [fe - ex], then round *)
    cbn [shr_m] in Hm1.
    set (m2 := round_nearest_even (shr_m mrs1) (loc_of_shr_record mrs1)).
    pose proof (round_nearest_even_bounds (shr_m mrs1)
                  (loc_of_shr_record mrs1)) as Hm2.
    fold m2 in Hm2. rewrite Hm1 in Hm2.
    replace (ex + (fe - ex)) with fe by lia.
    assert (Hpow : 0 < 2 ^ (fe - ex)) by (apply Z.pow_pos_nonneg; lia).
    assert (Hq : 0 <= Zpos p / 2 ^ (fe - ex) < 2 ^ 53).
    { split; [apply Z.div_pos; lia | ].
      apply Z.div_lt_upper_bound; [lia | ].
      rewrite <- Z.pow_add_r by lia.
      assert (2 ^ d <= 2 ^ (fe - ex + 53))
        by (apply Z.pow_le_mono_r; lia).
      lia. }
    assert (Hv2 : (dyadic m2 fe
                   <= dyadic (Zpos p) ex + 2 ^ fe)%Q).
    { eapply Qle_trans; [exact (dyadic_mono _ _ fe (proj2 Hm2)) | ].
      rewrite dyadic_succ. apply Qplus_le_l.
      pose proof (dyadic_shift_le (Zpos p) ex (fe - ex)) as S.
      replace (ex + (fe - ex)) with fe in S by lia.
      apply S; lia. }
    replace (ex <? fe) with true by (symmetry; apply Z.ltb_lt; lia).
    rewrite fexp_spec. cbn [shr_record_of_loc].
    set (n2 := Z.max (Zdigits2 m2 + fe - 53) (-1074) - fe).
    assert (Hn2 : n2 <= 1).
    { assert (Zdigits2 m2 <= 54)
        by (apply Zdigits2_le; [ | lia];
            change (2 ^ 54) with (2 * 2 ^ 53); lia).
      unfold n2. lia. }
    assert (P2 : 0 <= shr_m (Build_shr_record m2 false false))
      by (cbn; lia).
    destruct (shr_spec _ fe n2 P2)
      as [[Hn' E] | [Hn' (mrs3 & E & Hm3)]];
      rewrite E; clear E; cbn [shr_m] in *.
    + exists m2, fe. change (emax - prec) with 971.
      split; [reflexivity | ].
      split; [lia | split; [lia | exact Hv2]].
    + exists (shr_m mrs3), (fe + n2). change (emax - prec) with 971.
      split; [reflexivity | ].
      assert (0 < 2 ^ n2) by (apply Z.pow_pos_nonneg; lia).
      assert (0 <= m2 / 2 ^ n2 <= m2).
      { split; [apply Z.div_pos; lia | ].
        apply Z.div_le_upper_bound; [lia | ]. nia. }
      split; [lia | split; [lia | ]].
      rewrite Hm3.
      eapply Qle_trans; [apply dyadic_shift_le; lia | exact Hv2].
Qed.


Lemma tiny_bounds : (0 <= tiny /\ tiny <= 1 # 100)%Q.
Proof.
  split.
  - apply Qlt_le_weak, pow2_pos.
  - apply Qle_bool_imp_le. vm_compute. reflexivity.
Qed.

Lemma ulp_bound (p : positive) (ex : Z) :
  (2 ^ Z.max (Zpos (digits2_pos p) + ex - 53) (-1074)
   <= eps * dyadic (Zpos p) ex + tiny)%Q.
Proof.
  pose proof (digits2_bounds p) as [Dlo _].
  set (d := Zpos (digits2_pos p)) in *.
  pose proof (dyadic_nonneg (Zpos p) ex ltac:(lia)) as Hv.
  pose proof tiny_bounds as [Ht _].
  destruct (Z.max_spec (d + ex - 53) (-1074)) as [[_ ->] | [_ ->]].
  - fold tiny.
    assert (0 <= eps * dyadic (Zpos p) ex)%Q
      by (apply Qmult_le_0_compat; [discriminate | exact Hv]).
    lra.
  - assert (E : (2 ^ (d + ex - 53)
                 == eps * (inject_Z (2 ^ (d - 1)) * 2 ^ ex))%Q).
    { replace (d + ex - 53) with ((-52) + ((d - 1) + ex)) by lia.
      rewrite !pow2_add, pow2_inject by lia. reflexivity. }
    rewrite E.
    assert (eps * (inject_Z (2 ^ (d - 1)) * 2 ^ ex)
            <= eps * dyadic (Zpos p) ex)%Q.
    { apply Qmult_le_l; [reflexivity | ]. now apply dyadic_mono. }
    lra.
Qed.

Lemma round_aux_finite (sx s : bool) (p m : positive) (ex e : Z) :
  binary_round_aux prec emax sx (Zpos p) ex loc_Exact = S754_finite s m e ->
  s = sx /\
  Zpos m <= 2 ^ 53 /\
  e <= Z.max ex (Z.max (Zpos (digits2_pos p) + ex - 53) (-1074)) + 1 /\
  (dyadic (Zpos m) e <= (1 + eps) * dyadic (Zpos p) ex + tiny)%Q.
Proof.
  destruct (round_aux_structure sx p ex) as (m3 & e3 & E & Hm & He & Hv).
  rewrite E. intros R.
  destruct m3 as [|m'|m']; try discriminate R.
  destruct (e3 <=? 971); try discriminate R.
  injection R as <- <- <-.
  split; [reflexivity | split; [lia | split; [exact He | ]]].
  pose proof (ulp_bound p ex) as U.
  pose proof (dyadic_nonneg (Zpos p) ex ltac:(lia)) as Hp.
  pose proof tiny_bounds as [Ht _].
  assert (0 <= eps * dyadic (Zpos p) ex)%Q
    by (apply Qmult_le_0_compat; [discriminate | exact Hp]).
  destruct (ex <? _); lra.
Qed.

Lemma round_aux_total (sx : bool) (p : positive) (ex : Z) :
  Z.max ex (Z.max (Zpos (digits2_pos p) + ex - 53) (-1074)) + 1 <= 971 ->
  is_finite (binary_round_aux prec emax sx (Zpos p) ex loc_Exact) = true.
Proof.
  intros Hb.
  destruct (round_aux_structure sx p ex) as (m3 & e3 & E & Hm & He & _).
  rewrite E.
  destruct m3 as [|m'|m']; [reflexivity | | lia].
  replace (e3 <=? 971) with true by (symmetry; apply Z.leb_le; lia).
  reflexivity.
Qed.

Lemma round_aux_sign (sx : bool) (p : positive) (ex : Z) :
  match binary_round_aux prec emax sx (Zpos p) ex loc_Exact with
  | S754_zero s | S754_infinity s | S754_finite s _ _ => s = sx
  | S754_nan => True
  end.
Proof.
  destruct (round_aux_structure sx p ex) as (m3 & e3 & E & _).
  rewrite E. destruct m3; [reflexivity | | exact I].
  destruct (e3 <=? 971); reflexivity.
Qed.

(** *** [int(f)] *)

Lemma dyadic_0 (m : Z) : (dyadic m 0 == inject_Z m)%Q.
Proof. unfold dyadic. cbn. ring. Qed.

Lemma to_int_below (m : positive) (e : Z) :
  0 <= Z.shiftl (Zpos m) e /\
  (inject_Z (Z.shiftl (Zpos m) e) <= dyadic (Zpos m) e)%Q.
Proof.
  split; [apply Z.shiftl_nonneg; lia | ].
  destruct (Z.le_gt_cases 0 e) as [He | He].
  - rewrite Z.shiftl_mul_pow2 by lia.
    unfold dyadic. rewrite inject_Z_mult, pow2_inject by lia.
    apply Qle_refl.
  - rewrite Z.shiftl_div_pow2 by lia.
    pose proof (dyadic_shift_le (Zpos m) e (- e)) as S.
    replace (e + - e) with 0 in S by lia.
    rewrite dyadic_0 in S. apply S; lia.
Qed.


(** *** [float(n)] *)

Lemma iter_xO_spec (p k : positive) :
  Zpos (Pos.iter xO p k) = Zpos p * 2 ^ Zpos k /\
  Zpos (digits2_pos (Pos.iter xO p k)) = Zpos (digits2_pos p) + Zpos k.
Proof.
  induction k as [|k [IH1 IH2]] using Pos.peano_ind.
  - cbn [Pos.iter digits2_pos]. lia.
  - rewrite Pos.iter_succ. cbn [digits2_pos].
    rewrite Pos2Z.inj_xO, IH1, !Pos2Z.inj_succ, IH2.
    rewrite Z.pow_succ_r by lia. lia.
Qed.

Lemma shl_align_spec (mx : positive) (ex ex' : Z) :
  (dyadic (Zpos (fst (shl_align mx ex ex'))) (snd (shl_align mx ex ex'))
   == dyadic (Zpos mx) ex)%Q /\
  snd (shl_align mx ex ex') = Z.min ex ex' /\
  Zpos (digits2_pos (fst (shl_align mx ex ex'))) + snd (shl_align mx ex ex')
  = Zpos (digits2_pos mx) + ex.
Proof.
  unfold shl_align. destruct (ex' - ex) as [|k|k] eqn:D; cbn [fst snd].
  - split; [reflexivity | lia].
  - split; [reflexivity | lia].
  - destruct (iter_xO_spec mx k) as [I1 I2]. rewrite I1, I2.
    split; [ | lia].
    assert (Hex : ex = Zpos k + ex') by lia.
    rewrite Hex. unfold dyadic.
    rewrite inject_Z_mult, pow2_add, pow2_inject by lia.
    ring.
Qed.

Lemma of_int_pos (p : positive) :
  (Zpos p < 2 ^ 1000 ->
   is_finite (binary_normalize prec emax (Zpos p) 0 false) = true) /\
  match binary_normalize prec emax (Zpos p) 0 false with
  | S754_zero s => s = false
  | S754_finite s m e =>
      s = false /\ Zpos m <= 2 ^ 53 /\
      e <= Z.max 0 (Zpos (digits2_pos p) - 53) + 1 /\
      (dyadic (Zpos m) e <= (1 + eps) * inject_Z (Zpos p) + tiny)%Q
  | _ => True
  end.
Proof.
  cbn [binary_normalize]. unfold binary_round.
  pose proof (shl_align_spec p 0 (fexp prec emax (Zpos (digits2_pos p) + 0)))
    as (V & E & D).
  destruct (shl_align p 0 _) as [mz ez]. cbn [fst snd] in *.
  rewrite fexp_spec in E. rewrite dyadic_0 in V.
  split.
  - intros Hr. apply round_aux_total.
    assert (Zpos (digits2_pos p) <= 1000).
    { apply digits2_le. exact Hr. }
    lia.
  - pose proof (round_aux_sign false mz ez) as S.
    destruct (binary_round_aux prec emax false (Zpos mz) ez loc_Exact)
      as [s|s| |s m e] eqn:R; try exact I; try exact S.
    apply round_aux_finite in R. destruct R as (-> & Hm & He & Hv).
    split; [reflexivity | split; [exact Hm | split; [lia | ]]].
    rewrite V in Hv. exact Hv.
Qed.

(** *** [int(r * c)] for a positive constant [c] *)

Lemma scaled_pos (p mc : positive) (ec : Z) :
  Zpos mc < 2 ^ 53 -> ec <= -32 ->
  (Zpos p < 2 ^ 1000 ->
   exists z, int_of_scaled (Zpos p) (S754_finite false mc ec) = inr z) /\
  forall z,
    int_of_scaled (Zpos p) (S754_finite false mc ec) = inr z ->
    0 <= z /\
    (inject_Z z
     <= (1 + eps) * (((1 + eps) * inject_Z (Zpos p) + tiny)
                     * dyadic (Zpos mc) ec) + tiny)%Q.
Proof.
  intros Hmc Hec.
  unfold int_of_scaled, int_mul, of_int.
  destruct (of_int_pos p) as [Tot Val].
  pose proof tiny_bounds as [Ht _].
  pose proof (dyadic_nonneg (Zpos mc) ec ltac:(lia)) as Hc.
  destruct (binary_normalize prec emax (Zpos p) 0 false)
    as [s|s| |s mf ef] eqn:F; cbn [is_finite ebind] in *.
  - (* rounded to zero *)
    subst s. cbn [mul SFmul xorb to_int].
    split; [intros _; now exists 0 | ].
    intros z [= <-]. split; [lia | ].
    assert (0 <= inject_Z (Zpos p))%Q by (now rewrite <- (Zle_Qle 0)).
    assert (0 <= ((1 + eps) * inject_Z (Zpos p) + tiny)
                 * dyadic (Zpos mc) ec)%Q.
    { apply Qmult_le_0_compat; [ | exact Hc].
      assert (0 <= eps * inject_Z (Zpos p))%Q
        by (apply Qmult_le_0_compat; [discriminate | assumption]).
      lra. }
    change (inject_Z 0) with 0%Q. unfold eps in *. lra.
  - split; [intros Hr; discriminate (Tot Hr) | discriminate].
  - split; [intros Hr; discriminate (Tot Hr) | discriminate].
  - destruct Val as (-> & Hmf & Hef & Hvf).
    cbn [mul SFmul xorb].
    pose proof (round_aux_sign false (mf * mc) (ef + ec)) as S.
    split.
    + intros Hr.
      assert (Hfin : is_finite
                       (binary_round_aux prec emax false
                          (Zpos (mf * mc)) (ef + ec) loc_Exact) = true).
      { apply round_aux_total.
        assert (Zpos (digits2_pos p) <= 1000) by (now apply digits2_le).
        assert (Zpos (digits2_pos (mf * mc)) <= 106).
        { apply digits2_le. rewrite Pos2Z.inj_mul.
          change (2 ^ 106) with (2 ^ 53 * 2 ^ 53). nia. }
        lia. }
      destruct (binary_round_aux prec emax false (Zpos (mf * mc))
                  (ef + ec) loc_Exact) as [s|s| |s m e];
        try discriminate Hfin; cbn [to_int]; eexists; reflexivity.
    + intros z Hz.
      destruct (binary_round_aux prec emax false (Zpos (mf * mc))
                  (ef + ec) loc_Exact) as [s|s| |s m e] eqn:R;
        cbn [to_int] in Hz; try discriminate Hz.
      * injection Hz as <-. split; [lia | ].
        assert (0 <= inject_Z (Zpos p))%Q by (now rewrite <- (Zle_Qle 0)).
        assert (0 <= ((1 + eps) * inject_Z (Zpos p) + tiny)
                     * dyadic (Zpos mc) ec)%Q.
        { apply Qmult_le_0_compat; [ | exact Hc].
          assert (0 <= eps * inject_Z (Zpos p))%Q
            by (apply Qmult_le_0_compat; [discriminate | assumption]).
          lra. }
        change (inject_Z 0) with 0%Q. unfold eps in *. lra.
      * apply round_aux_finite in R. destruct R as (-> & _ & _ & Hv).
        injection Hz as <-.
        destruct (to_int_below m e) as [Z0' Zv].
        split; [exact Z0' | ].
        rewrite Pos2Z.inj_mul, dyadic_mul in Hv.
        assert (dyadic (Zpos mf) ef * dyadic (Zpos mc) ec
                <= ((1 + eps) * inject_Z (Zpos p) + tiny)
                   * dyadic (Zpos mc) ec)%Q
          by (apply Qmult_le_compat_r; assumption).
        assert ((1 + eps) * (dyadic (Zpos mf) ef * dyadic (Zpos mc) ec)
                <= (1 + eps)
                   * (((1 + eps) * inject_Z (Zpos p) + tiny)
                      * dyadic (Zpos mc) ec))%Q
          by (apply Qmult_le_l; [reflexivity | assumption]).
        lra.
Qed.

End FloatFacts.

(** ** The inner highlight *)

Section Highlight.

Lemma literal_half :
  PyFloat.literal 5 10 = S754_finite false 4503599627370496 (-53).
Proof. vm_compute. reflexivity. Qed.

Lemma literal_15_100 :
  PyFloat.literal 15 100 = S754_finite false 5404319552844595 (-55).
Proof. vm_compute. reflexivity. Qed.

Lemma dyadic_half : (dyadic 4503599627370496 (-53) == 1 # 2)%Q.
Proof. vm_compute. reflexivity. Qed.

Lemma dyadic_15_100 : (dyadic 5404319552844595 (-55) <= 3 # 20)%Q.
Proof. apply Qle_bool_imp_le. vm_compute. reflexivity. Qed.

(** [int(r * 0.5) + int(r * 0.15) <= r] whenever both are computed. *)
Lemma highlight_fits (r hr up : Z) :
  0 <= r ->
  highlight_radius r = inr hr -> highlight_shift r = inr up ->
  0 <= hr /\ 0 <= up /\ hr + up <= r.
Proof.
  intros Hr. unfold highlight_radius, highlight_shift.
  rewrite literal_half, literal_15_100.
  destruct r as [|p|p]; [ | | lia].
  - assert (E0 : forall m e,
               int_of_scaled 0 (S754_finite false m e) = inr 0)
      by reflexivity.
    rewrite !E0. intros [= <-] [= <-]. lia.
  - intros Eh Eu.
    destruct (FloatFacts.scaled_pos p 4503599627370496 (-53))
      as [_ Bh]; [reflexivity | lia | ].
    destruct (FloatFacts.scaled_pos p 5404319552844595 (-55))
      as [_ Bu]; [reflexivity | lia | ].
    destruct (Bh hr Eh) as [Hh Qh]. destruct (Bu up Eu) as [Hu Qu].
    split; [exact Hh | split; [exact Hu | ]].
    rewrite Zle_Qle, inject_Z_plus.
    pose proof FloatFacts.tiny_bounds as [T0 T1].
    assert (R1 : (1 <= inject_Z (Zpos p))%Q)
      by (rewrite <- (Zle_Qle 1); lia).
    rewrite dyadic_half in Qh.
    assert (Qu' : (inject_Z up
                   <= (1 + eps) * (((1 + eps) * inject_Z (Zpos p) + tiny)
                                   * (3 # 20)) + tiny)%Q).
    { eapply Qle_trans; [exact Qu | ].
      apply Qplus_le_l. apply Qmult_le_l; [reflexivity | ].
      apply Qmult_le_l; [ | exact dyadic_15_100].
      unfold eps. lra. }
    unfold eps in *. lra.
Qed.

Lemma highlight_computed (r : Z) :
  0 <= r < 2 ^ 1000 ->
  exists hr up, highlight_radius r = inr hr /\ highlight_shift r = inr up.
Proof.
  intros [Hr Hlt]. unfold highlight_radius, highlight_shift.
  rewrite literal_half, literal_15_100.
  destruct r as [|p|p]; [ | | lia].
  - exists 0, 0. split; reflexivity.
  - destruct (FloatFacts.scaled_pos p 4503599627370496 (-53))
      as [Th _]; [reflexivity | lia | ].
    destruct (FloatFacts.scaled_pos p 5404319552844595 (-55))
      as [Tu _]; [reflexivity | lia | ].
    destruct (Th Hlt) as [hr Eh]. destruct (Tu Hlt) as [up Eu].
    exists hr, up. split; [exact Eh | exact Eu].
Qed.

(** The highlight disc lies in the core disc as soon as its radius and
    its shift add up to at most the core radius. *)
Lemma highlight_geometry (x y r hr up : Z) :
  0 <= hr -> 0 <= up -> hr + up <= r ->
  box_inside (highlight_box x y hr up) (circle_box x y r) /\
  forall p, in_ellipse (highlight_box x y hr up) p ->
            in_ellipse (circle_box x y r) p.
Proof.
  intros Hh Hu Hsum. unfold highlight_box, circle_box.
  split; [cbn; lia | ].
  intros [px py]. cbn [in_ellipse].
  intros (Bx & By & Hin).
  split; [lia | split; [lia | ]].
  set (a := px - x) in *. set (b := py - y + up) in *.
  replace (2 * px - (x - r + (x + r))) with (2 * a) by (unfold a; lia).
  replace (2 * py - (y - r + (y + r))) with (2 * (b - up))
    by (unfold b; lia).
  replace (x + r - (x - r)) with (2 * r) by lia.
  replace (y + r - (y - r)) with (2 * r) by lia.
  assert (Ha : - hr <= a <= hr) by (unfold a; lia).
  assert (Hb : - hr <= b <= hr) by (unfold b; lia).
  assert (Hab : a * a + b * b <= hr * hr).
  { destruct (Z.eq_dec hr 0) as [-> | Hnz]; [nia | ].
    replace (2 * px - (x - hr + (x + hr))) with (2 * a) in Hin
      by (unfold a; lia).
    replace (2 * py - (y - hr - up + (y + hr - up))) with (2 * b) in Hin
      by (unfold b; lia).
    replace (x + hr - (x - hr)) with (2 * hr) in Hin by lia.
    replace (y + hr - up - (y - hr - up)) with (2 * hr) in Hin by lia.
    assert (0 < hr * hr) by nia.
    assert ((hr * hr) * (a * a + b * b) <= (hr * hr) * (hr * hr)) by nia.
    apply Z.mul_le_mono_pos_l with (p := hr * hr); assumption. }
  assert (Hd : a * a + (b - up) * (b - up) <= r * r) by nia.
  clear - Hd Hsum Hh Hu.
  assert (0 <= r * r) by nia.
  replace ((2 * a) ^ 2 * (2 * r) ^ 2 + (2 * (b - up)) ^ 2 * (2 * r) ^ 2)
    with (16 * (r * r) * (a * a + (b - up) * (b - up))) by ring.
  replace ((2 * r) ^ 2 * (2 * r) ^ 2) with (16 * (r * r) * (r * r)) by ring.
  apply Z.mul_le_mono_nonneg_l; [lia | exact Hd].
Qed.

(** What the loop body draws for a dot whose highlight is computed. *)
Lemma draw_dot_spec (x y r hr up : Z) (w : World) :
  highlight_radius r = inr hr -> highlight_shift r = inr up ->
  draw_dot (x, y, r) w
  = (inr tt,
     after_drawing w (glow_ellipses x y r
                      ++ [core_ellipse (x, y, r);
                          Ellipse (highlight_box x y hr up) accent_light])).
Proof.
  intros Eh Eu. unfold draw_dot.
  unfold bind at 1. rewrite glow_loop_spec.
  unfold bind, lift. rewrite !draw_spec, Eh, Eu, draw_spec.
  rewrite !after_drawing_app. reflexivity.
Qed.

End Highlight.

(** C10.  For every dot [(x, y, r)] with [r >= 0]: the highlight radius
    [int(r * 0.5)] and shift [int(r * 0.15)] are computed (for every [r]
    below [2^1000] at least), they are non-negative and add up to at most
    [r], the loop body draws the highlight in the box they give, and that
    ellipse lies inside the core circle of radius [r] around [(x, y)]:
    box in box, and every pixel of the highlight is a pixel of the core. *)
Theorem highlight_inside_core (x y r : Z) :
  0 <= r ->
  (r < 2 ^ 1000 ->
   exists hr up, highlight_radius r = inr hr /\ highlight_shift r = inr up) /\
  forall hr up,
    highlight_radius r = inr hr -> highlight_shift r = inr up ->
    0 <= hr /\ 0 <= up /\ hr + up <= r /\
    (forall w,
        draw_dot (x, y, r) w
        = (inr tt,
           after_drawing w
             (glow_ellipses x y r
              ++ [Ellipse (circle_box x y r) accent;
                  Ellipse (highlight_box x y hr up) accent_light]))) /\
    box_inside (highlight_box x y hr up) (circle_box x y r) /\
    forall p, in_ellipse (highlight_box x y hr up) p ->
              in_ellipse (circle_box x y r) p.
Proof.
  intros Hr. split.
  - intros Hlt. apply highlight_computed. lia.
  - intros hr up Eh Eu.
    destruct (highlight_fits r hr up Hr Eh Eu) as (Hh & Hu & Hsum).
    split; [exact Hh | split; [exact Hu | split; [exact Hsum | ]]].
    split; [intros w; now apply draw_dot_spec | ].
    now apply highlight_geometry.
Qed.

Lemma highlight_inside_core_witness :
  highlight_radius 70 = inr 35 /\ highlight_shift 70 = inr 10 /\
  35 + 10 <= 70 /\
  box_inside (highlight_box 300 680 35 10) (circle_box 300 680 70).
Proof.
  assert (Eh : highlight_radius 70 = inr 35) by (vm_compute; reflexivity).
  assert (Eu : highlight_shift 70 = inr 10) by (vm_compute; reflexivity).
  destruct (highlight_inside_core 300 680 70) as [_ H]; [lia | ].
  destruct (H 35 10 Eh Eu) as (_ & _ & Hsum & _ & Hbox & _).
  split; [exact Eh | split; [exact Eu | split; [exact Hsum | exact Hbox]]].
Defined.

(** ** Concrete runs *)

(** [40 * (1 - 27 / 30)] is the double [(2^53 - 2) * 2^-51], just below 4:
    [int] makes it 3. *)
Example forty_times_one_minus_27_30 :
  (let! q := PyFloat.int_truediv 27 30 in
   let! d := PyFloat.int_sub 1 q in
   PyFloat.int_mul 40 d)
  = inr (S754_finite false 9007199254740990 (-51))
  /\ (dyadic 9007199254740990 (-51) < 4)%Q
  /\ glow_alpha 70 97 = inr 3.
Proof.
  split; [vm_compute; reflexivity | split; [ | vm_compute; reflexivity]].
  vm_compute. reflexivity.
Qed.

(** With no system font and a writable disk the run ends normally, having
    created the directory, saved the image and printed the confirmation. *)
Example linux_host_run :
  outcome linux_host = inr tt /\
  filter (fun ev => negb (is_draw ev)) (events linux_host)
  = [ EvTruetype SF_COMPACT 220;
      EvTruetype HELVETICA 220;
      EvLoadDefault;
      EvMakedirs "/repo/desktop/scripts/../assets" true;
      EvSave (composed linux_host)
             "/repo/desktop/scripts/../assets/icon.png" "PNG";
      EvPrint
        "Icon saved to /repo/desktop/scripts/../assets/icon.png (1024x1024)" ].
Proof. split; vm_compute; reflexivity. Qed.

(** The highlight of each of the three dots. *)
Example highlights_of_dots :
  map (fun dot => (highlight_radius (dot_radius dot),
                   highlight_shift (dot_radius dot))) dots
  = [ (inr 35, inr 10); (inr 27, inr 8); (inr 20, inr 6) ].
Proof. vm_compute. reflexivity. Qed.

(** * Further properties *)

(** ** Layout of the artwork *)

Lemma draw_chevron_spec (offset : Z) (w : World) :
  draw_chevron offset w = (inr tt, after_drawing w [chevron offset]).
Proof. reflexivity. Qed.

Lemma art_ops_layout :
  art_ops
  = ([background_rect; border_rect] ++ flat_map dot_drawing dots
     ++ trail [8; 6] ++ map chevron [0; 35])%list.
Proof. vm_compute. reflexivity. Qed.

(** X1.  Draw order.  In every run the canvas receives, in this order: the
    background, the border, for each dot of the list its ten glow circles
    (outermost first), its core and its highlight, then the two trail lines
    between successive dot centres (widths 8 and 6), the two chevrons, and
    last the glyph, which is there exactly when a font was resolved. *)
Theorem draw_order (h : Host) :
  img_drawn (composed h)
  = ([background_rect; border_rect]
     ++ flat_map dot_drawing dots
     ++ trail [8; 6]
     ++ map chevron [0; 35]
     ++ match resolved_font h with
        | inr font => [glyph_op font]
        | inl _ => []
        end)%list.
Proof.
  rewrite composed_spec, resolved_font_spec.
  destruct (first_font h) as [e|font].
  - cbn [img after_drawing blank Image_new img_drawn app].
    rewrite art_ops_layout, <- ?app_assoc, ?app_nil_r. reflexivity.
  - unfold final_image. cbn [img_drawn].
    rewrite art_ops_layout, <- ?app_assoc. reflexivity.
Qed.

(** A circle lies inside every larger circle around the same centre. *)
Lemma concentric_inside (x y g1 g2 : Z) (p : Point) :
  0 <= g1 <= g2 ->
  in_ellipse (circle_box x y g1) p -> in_ellipse (circle_box x y g2) p.
Proof.
  intros [H0 H1].
  replace (circle_box x y g1) with (highlight_box x y g1 0)
    by (unfold highlight_box, circle_box; now rewrite !Z.sub_0_r).
  apply highlight_geometry; lia.
Qed.

(** X2.  For every dot [(x, y, r)] with [r >= 0], the shapes of the glow
    loop and the core are nested: each of the ten glow circles and the core
    lies inside every circle drawn before it, so what stays visible of a
    glow circle is the ring between it and the next one. *)
Theorem glow_circles_nested (x y r : Z) :
  0 <= r ->
  StronglySorted (fun earlier later => forall p, covers later p ->
                                                 covers earlier p)
                 (glow_ellipses x y r ++ [core_ellipse (x, y, r)]).
Proof.
  intros Hr. unfold glow_ellipses, glow_ellipse, core_ellipse.
  cbn [combine glow_offsets glow_alphas map app fst snd].
  replace (circle_box x y r) with (circle_box x y (r + 0))
    by (now rewrite Z.add_0_r).
  repeat (apply SSorted_cons; [ | repeat apply Forall_cons;
                                  try apply Forall_nil;
                                  intros p; cbn [covers];
                                  apply concentric_inside; lia ]).
  apply SSorted_nil.
Qed.

Lemma glow_circles_nested_witness :
  StronglySorted (fun earlier later => forall p, covers later p ->
                                                 covers earlier p)
                 (glow_ellipses 300 680 70 ++ [core_ellipse (300, 680, 70)]).
Proof. apply (glow_circles_nested 300 680 70). lia. Defined.

(** X3.  Nothing is painted outside the background: in every run, every
    pixel that a rectangle, an ellipse or a line of the artwork can touch
    (lines taken with their stroke width) lies inside the background
    rounded rectangle, corners included. *)
Theorem artwork_inside_background (h : Host) (op : DrawOp) (p : Point) :
  In op (img_drawn (composed h)) ->
  covers op p ->
  in_rounded_rect background_box radius p.
Proof.
  rewrite composed_spec. intros Hin Hc.
  assert (Hart : In op art_ops).
  { destruct (first_font h) as [e|font]; [exact Hin | ].
    unfold final_image in Hin. cbn [img_drawn] in Hin.
    apply in_app_or in Hin. destruct Hin as [Hin | [<- | []]];
      [exact Hin | destruct Hc]. }
  clear Hin. destruct p as [px py].
  unfold art_ops in Hart. cbn [In] in Hart.
  repeat (destruct Hart as [<- | Hart];
          [ cbv [covers in_ellipse in_rounded_rect least greatest map
                 fold_right hd fst snd] in Hc;
            cbv [in_rounded_rect background_box radius SIZE];
            lia | ]).
  contradiction.
Qed.

Lemma artwork_inside_background_witness :
  in_rounded_rect background_box radius (200, 680).
Proof.
  apply (artwork_inside_background linux_host
           (Ellipse ((200, 580), (400, 780)) (99, 102, 241, 0)) (200, 680)).
  - vm_compute. tauto.
  - cbv [covers in_ellipse]. lia.
Defined.

(** ** The alpha formula on the whole glow band *)

Lemma glow_alpha_band_table (d : Z) :
  0 <= d <= 30 ->
  glow_alpha 0 d = inr (nth (Z.to_nat d) band_alphas 0).
Proof.
  intros Hd.
  assert (E : exists n, (n <= 30)%nat /\ d = Z.of_nat n)
    by (exists (Z.to_nat d); lia).
  destruct E as (n & Hn & ->). rewrite Nat2Z.id.
  do 31 (destruct n as [|n]; [vm_compute; reflexivity | ]).
  lia.
Qed.

Lemma band_alphas_linear (d : Z) :
  0 <= d <= 30 ->
  let a := nth (Z.to_nat d) band_alphas 0 in
  0 <= a /\ 3 * a <= 4 * (30 - d) <= 3 * a + 3.
Proof.
  intros Hd.
  assert (E : exists n, (n <= 30)%nat /\ d = Z.of_nat n)
    by (exists (Z.to_nat d); lia).
  destruct E as (n & Hn & ->). rewrite Nat2Z.id.
  do 31 (destruct n as [|n]; [cbn; lia | ]).
  lia.
Qed.

(** X4.  For every core radius [r], the alpha formula
    [int(40 * (1 - (g - r) / 30))] is defined at every integer radius [g]
    from [r] to [r + 30], stays within one of the exact linear value,
    lies in [0, 40], and strictly decreases as [g] grows; it is exactly 40
    at [g = r] and 0 at [g = r + 30], and one pixel outside the band it
    leaves the range: 41 at [r - 1], -1 at [r + 31]. *)
Theorem glow_alpha_band (r : Z) :
  (forall g1 g2,
      r <= g1 -> g1 < g2 -> g2 <= r + 30 ->
      exists a1 a2,
        glow_alpha r g1 = inr a1 /\ glow_alpha r g2 = inr a2 /\
        a2 < a1 /\ 0 <= a2 /\ a1 <= 40 /\
        3 * a1 <= 4 * (30 - (g1 - r)) <= 3 * a1 + 3 /\
        3 * a2 <= 4 * (30 - (g2 - r)) <= 3 * a2 + 3) /\
  glow_alpha r r = inr 40 /\
  glow_alpha r (r + 30) = inr 0 /\
  glow_alpha r (r - 1) = inr 41 /\
  glow_alpha r (r + 31) = inr (-1).
Proof.
  split.
  - intros g1 g2 H1 H12 H2.
    assert (E1 : glow_alpha r g1 = glow_alpha 0 (g1 - r))
      by (rewrite <- (glow_alpha_offset r (g1 - r)); f_equal; lia).
    assert (E2 : glow_alpha r g2 = glow_alpha 0 (g2 - r))
      by (rewrite <- (glow_alpha_offset r (g2 - r)); f_equal; lia).
    rewrite E1, E2, !glow_alpha_band_table by lia.
    pose proof (band_alphas_linear (g1 - r) ltac:(lia)) as L1.
    pose proof (band_alphas_linear (g2 - r) ltac:(lia)) as L2.
    cbv zeta in L1, L2.
    eexists _, _. split; [reflexivity | split; [reflexivity | ]].
    lia.
  - assert (E : forall d, glow_alpha r (r + d) = glow_alpha 0 d)
      by (intros d; apply glow_alpha_offset).
    rewrite <- (Z.add_0_r r) at 2.
    replace (r - 1) with (r + -1) by lia.
    rewrite !E.
    repeat split; vm_compute; reflexivity.
Qed.

Lemma glow_alpha_band_witness :
  exists a1 a2,
    glow_alpha 55 56 = inr a1 /\ glow_alpha 55 57 = inr a2 /\
    a2 < a1 /\ 0 <= a2 /\ a1 <= 40 /\
    3 * a1 <= 4 * (30 - (56 - 55)) <= 3 * a1 + 3 /\
    3 * a2 <= 4 * (30 - (57 - 55)) <= 3 * a2 + 3.
Proof.
  destruct (glow_alpha_band 55) as [H _].
  apply (H 56 57); lia.
Defined.

(** ** How a run ends *)

Lemma filter_none {A : Type} (f : A -> bool) (l : list A) :
  forallb (fun a => negb (f a)) l = true -> filter f l = [].
Proof.
  induction l as [|a l IH]; [reflexivity | ].
  cbn [forallb filter]. intros H.
  apply andb_prop in H. destruct H as [Ha Hl].
  rewrite (IH Hl). now destruct (f a).
Qed.

Section Endings.

Variable h : Host.

Lemma composing_events_no_print (font : Font) :
  filter is_print (composing_events h font) = [].
Proof.
  unfold composing_events. rewrite !filter_app.
  assert (D : forall ops, filter is_print (map EvDraw ops) = [])
    by (induction ops as [|op ops IH]; [reflexivity | exact IH]).
  rewrite !D. unfold font_events.
  destruct (truetype h SF_COMPACT 220) as [e1|f1];
    [ destruct (is_OSError e1);
      [ destruct (truetype h HELVETICA 220) as [e2|f2];
        [ destruct (is_OSError e2) | ] | ] | ];
    reflexivity.
Qed.

Lemma font_events_filtered (ops : list DrawOp) (rest : list Event) :
  forallb (fun ev => negb (is_font_event ev)) rest = true ->
  filter is_font_event (map EvDraw ops ++ font_events h ++ rest)
  = font_events h.
Proof.
  intros Hrest. rewrite !filter_app.
  assert (D : filter is_font_event (map EvDraw ops) = [])
    by (induction ops as [|op l IH]; [reflexivity | exact IH]).
  assert (R : filter is_font_event rest = []).
  { induction rest as [|ev l IH]; [reflexivity | ].
    cbn [forallb filter] in *. apply andb_prop in Hrest.
    destruct Hrest as [Hev Hl]. rewrite (IH Hl).
    now destruct (is_font_event ev). }
  rewrite D, R, app_nil_r. cbn [app].
  unfold font_events.
  destruct (truetype h SF_COMPACT 220) as [e1|f1];
    [ destruct (is_OSError e1);
      [ destruct (truetype h HELVETICA 220) as [e2|f2];
        [ destruct (is_OSError e2) | ] | ] | ];
    reflexivity.
Qed.

Lemma font_events_no_print : filter is_print (font_events h) = [].
Proof.
  unfold font_events.
  destruct (truetype h SF_COMPACT 220) as [e1|f1];
    [ destruct (is_OSError e1);
      [ destruct (truetype h HELVETICA 220) as [e2|f2];
        [ destruct (is_OSError e2) | ] | ] | ];
    reflexivity.
Qed.

(** What a run prints. *)
Lemma prints_spec :
  filter is_print (events h)
  = match outcome h with
    | inr _ => [EvPrint (confirmation h)]
    | inl _ => []
    end.
Proof.
  unfold events, outcome. rewrite run_spec.
  destruct (first_font h) as [e|font]; cbv zeta.
  - cbn [fst snd trace]. rewrite filter_app, font_events_no_print.
    rewrite app_nil_r.
    induction art_ops as [|op ops IH]; [reflexivity | exact IH].
  - destruct (os_makedirs h (parent_dir h) true) as [e|];
      [ | destruct (image_save h (final_image font) (OUT h) "PNG") as [e|] ];
      cbn [fst snd trace];
      rewrite filter_app, composing_events_no_print; reflexivity.
Qed.

(** The font calls of a run, in order. *)
Lemma font_calls_spec : filter is_font_event (events h) = font_events h.
Proof.
  unfold events. rewrite run_spec.
  destruct (first_font h) as [e|font]; cbv zeta.
  - cbn [snd trace].
    rewrite <- (app_nil_r (font_events h)) at 1.
    now apply font_events_filtered.
  - unfold composing_events.
    destruct (os_makedirs h (parent_dir h) true) as [e|];
      [ | destruct (image_save h (final_image font) (OUT h) "PNG") as [e|] ];
      cbn [snd trace]; rewrite <- !app_assoc;
      now apply font_events_filtered.
Qed.

End Endings.

(** X5.  The font chain stops at the first success and tries the
    candidates in a fixed order: every run asks for SFCompact at size 220
    first; Helvetica is asked for if and only if SFCompact failed with an
    [OSError]; the built-in default is loaded if and only if both failed
    with an [OSError]; no other font is ever requested. *)
Theorem font_chain_order (h : Host) :
  hd_error (filter is_font_event (events h))
  = Some (EvTruetype SF_COMPACT 220) /\
  (In (EvTruetype HELVETICA 220) (events h) <->
   exists e, truetype h SF_COMPACT 220 = inl e /\ is_OSError e = true) /\
  (In EvLoadDefault (events h) <->
   exists e1 e2,
     truetype h SF_COMPACT 220 = inl e1 /\ is_OSError e1 = true /\
     truetype h HELVETICA 220 = inl e2 /\ is_OSError e2 = true) /\
  (forall path size,
      In (EvTruetype path size) (events h) ->
      size = 220 /\ (path = SF_COMPACT \/ path = HELVETICA)).
Proof.
  assert (M : forall ev, is_font_event ev = true ->
                         (In ev (events h) <-> In ev (font_events h))).
  { intros ev Hev. rewrite <- font_calls_spec, filter_In. tauto. }
  rewrite font_calls_spec.
  rewrite (M (EvTruetype HELVETICA 220) eq_refl), (M EvLoadDefault eq_refl).
  assert (P : forall path size,
             In (EvTruetype path size) (font_events h) ->
             size = 220 /\ (path = SF_COMPACT \/ path = HELVETICA)).
  { unfold font_events. intros path size.
    destruct (truetype h SF_COMPACT 220) as [e1|f1];
      [ destruct (is_OSError e1);
        [ destruct (truetype h HELVETICA 220) as [e2|f2];
          [ destruct (is_OSError e2) | ] | ] | ];
      cbn [In]; intros Hin;
      repeat (destruct Hin as [Hin | Hin];
              [ try discriminate Hin; injection Hin as <- <-; tauto | ]);
      contradiction. }
  split; [reflexivity | ].
  split; [ | split ].
  - unfold font_events.
    destruct (truetype h SF_COMPACT 220) as [e1|f1].
    + destruct (is_OSError e1) eqn:O1.
      * split; [intros _; now exists e1 | intros _; cbn; tauto].
      * split; [cbn; intros [H | []]; discriminate H | ].
        intros (e & [= <-] & O). congruence.
    + split; [cbn; intros [H | []]; discriminate H | ].
      intros (e & H & _). discriminate H.
  - unfold font_events.
    destruct (truetype h SF_COMPACT 220) as [e1|f1].
    + destruct (is_OSError e1) eqn:O1.
      * destruct (truetype h HELVETICA 220) as [e2|f2].
        -- destruct (is_OSError e2) eqn:O2.
           ++ split; [intros _; now exists e1, e2 | intros _; cbn; tauto].
           ++ split; [cbn; intros [H | [H | []]]; discriminate H | ].
              intros (a & b & _ & _ & [= <-] & O). congruence.
        -- split; [cbn; intros [H | [H | []]]; discriminate H | ].
           intros (a & b & _ & _ & H & _). discriminate H.
      * split; [cbn; intros [H | []]; discriminate H | ].
        intros (a & b & [= <-] & O & _). congruence.
    + split; [cbn; intros [H | []]; discriminate H | ].
      intros (a & b & H & _). discriminate H.
  - intros path size Hin. apply P.
    exact (proj1 (M (EvTruetype path size) eq_refl) Hin).
Qed.

(** X6.  When font resolution itself raises, the exception is not an
    [OSError], the run ends with it, the glyph is not drawn (the canvas
    holds the artwork only) and the file system is never touched. *)
Theorem font_error_stops_run (h : Host) (e : exn) :
  resolved_font h = inl e ->
  is_OSError e = false /\
  outcome h = inl e /\
  img_drawn (composed h) = art_ops /\
  filter is_filesystem (events h) = [] /\
  filter is_print (events h) = [].
Proof.
  rewrite resolved_font_spec. intros F.
  split.
  { unfold first_font in F.
    destruct (truetype h SF_COMPACT 220) as [e1|f1]; [ | discriminate F].
    destruct (is_OSError e1) eqn:O1; [ | now injection F as <-].
    destruct (truetype h HELVETICA 220) as [e2|f2]; [ | discriminate F].
    destruct (is_OSError e2) eqn:O2; [discriminate F | now injection F as <-]. }
  unfold outcome, events. rewrite composed_spec, run_spec, F.
  cbn [fst snd trace img after_drawing blank Image_new img_drawn app].
  split; [reflexivity | split; [reflexivity | ]].
  assert (D : forall (f : Event -> bool) ops,
             (forall op, f (EvDraw op) = false) ->
             filter f (map EvDraw ops) = []).
  { intros f ops Hf. induction ops as [|op ops IH]; [reflexivity | ].
    cbn. now rewrite Hf. }
  rewrite !filter_app, !D by reflexivity. cbn [app].
  unfold font_events.
  destruct (truetype h SF_COMPACT 220) as [e1|f1];
    [ destruct (is_OSError e1);
      [ destruct (truetype h HELVETICA 220) as [e2|f2];
        [ destruct (is_OSError e2) | ] | ] | ];
    split; reflexivity.
Qed.

Lemma font_error_stops_run_witness :
  outcome no_freetype_host = inl (OtherError "ImportError") /\
  filter is_filesystem (events no_freetype_host) = [].
Proof.
  destruct (font_error_stops_run no_freetype_host (OtherError "ImportError"))
    as (_ & O & _ & S & _).
  - reflexivity.
  - split; [exact O | exact S].
Defined.

(** X7.  When [os.makedirs] raises, the run ends with that exception:
    the image is complete in memory, [img.save] is never called and
    nothing is printed. *)
Theorem makedirs_error_stops_run (h : Host) (font : Font) (e : exn) :
  resolved_font h = inr font ->
  os_makedirs h (parent_dir h) true = Some e ->
  outcome h = inl e /\
  composed h = final_image font /\
  filter is_filesystem (events h) = [EvMakedirs (parent_dir h) true] /\
  filter is_print (events h) = [].
Proof.
  rewrite resolved_font_spec. intros F Mk.
  unfold outcome, events. rewrite composed_spec, run_spec, F. cbv zeta.
  rewrite Mk. cbn [fst snd trace].
  split; [reflexivity | split; [reflexivity | ]].
  rewrite !filter_app, composing_events_no_print.
  rewrite (filter_none is_filesystem _
             (composing_events_no_filesystem h font)).
  split; reflexivity.
Qed.

Lemma makedirs_error_stops_run_witness :
  outcome readonly_host = inl (OSError "Read-only file system") /\
  filter is_filesystem (events readonly_host)
  = [EvMakedirs "/repo/desktop/scripts/../assets" true].
Proof.
  destruct (makedirs_error_stops_run readonly_host bitmap_font
              (OSError "Read-only file system")) as (O & _ & S & _).
  - reflexivity.
  - reflexivity.
  - split; [exact O | exact S].
Defined.

(** X8.  When [img.save] raises, the run ends with that exception after
    the directory call, with exactly one save attempted, and the
    confirmation is not printed. *)
Theorem save_error_stops_run (h : Host) (font : Font) (e : exn) :
  resolved_font h = inr font ->
  os_makedirs h (parent_dir h) true = None ->
  image_save h (final_image font) (OUT h) "PNG" = Some e ->
  outcome h = inl e /\
  filter is_filesystem (events h)
  = [EvMakedirs (parent_dir h) true;
     EvSave (final_image font) (OUT h) "PNG"] /\
  filter is_print (events h) = [].
Proof.
  rewrite resolved_font_spec. intros F Mk Sv.
  unfold outcome, events. rewrite run_spec, F. cbv zeta.
  rewrite Mk, Sv. cbn [fst snd trace].
  split; [reflexivity | ].
  rewrite !filter_app, composing_events_no_print.
  rewrite (filter_none is_filesystem _
             (composing_events_no_filesystem h font)).
  split; reflexivity.
Qed.

Lemma save_error_stops_run_witness :
  outcome full_disk_host = inl (OSError "No space left on device") /\
  filter is_print (events full_disk_host) = [].
Proof.
  destruct (save_error_stops_run full_disk_host bitmap_font
              (OSError "No space left on device")) as (O & _ & P).
  - reflexivity.
  - reflexivity.
  - reflexivity.
  - split; [exact O | exact P].
Defined.

(** X9.  The confirmation line is printed if and only if the run
    succeeds; it is then the only line printed, and it reads
    "Icon saved to <OUT> (1024x1024)". *)
Theorem confirmation_iff_success (h : Host) :
  (outcome h = inr tt <-> In (EvPrint (confirmation h)) (events h)) /\
  (outcome h = inr tt ->
   filter is_print (events h) = [EvPrint (confirmation h)]) /\
  confirmation h = "Icon saved to " ++ OUT h ++ " (1024x1024)".
Proof.
  pose proof (prints_spec h) as P.
  split; [ | split; [ | reflexivity ] ].
  - split.
    + intros O. rewrite O in P.
      assert (Hin : In (EvPrint (confirmation h))
                       (filter is_print (events h)))
        by (rewrite P; left; reflexivity).
      exact (proj1 (proj1 (filter_In _ _ _) Hin)).
    + intros Hin.
      assert (Hp : In (EvPrint (confirmation h))
                      (filter is_print (events h)))
        by (exact (proj2 (filter_In _ _ _) (conj Hin eq_refl))).
      rewrite P in Hp.
      destruct (outcome h) as [e|[]]; [destruct Hp | reflexivity].
  - intros O. rewrite O in P. exact P.
Qed.

Lemma confirmation_iff_success_witness :
  filter is_print (events linux_host)
  = [EvPrint
       "Icon saved to /repo/desktop/scripts/../assets/icon.png (1024x1024)"].
Proof.
  destruct (confirmation_iff_success linux_host) as (_ & P & _).
  apply P. vm_compute. reflexivity.
Defined.

(** ** The highlight radius is exact *)

Module FloatExact.
Import PyFloat.

Lemma shr_1_even (a : Z) :
  0 <= a ->
  shr_1 (Build_shr_record (a * 2) false false)
  = Build_shr_record a false false.
Proof.
  intros Ha. destruct a as [|q|q]; [reflexivity | | lia].
  change (Zpos q * 2) with (Zpos (q * 2)).
  rewrite Pos.mul_comm. reflexivity.
Qed.

Lemma iter_shr_1_exact (n : positive) :
  forall a, 0 <= a ->
            iter_pos shr_1 n (Build_shr_record (a * 2 ^ Zpos n) false false)
            = Build_shr_record a false false.
Proof.
  induction n as [n IH | n IH | ]; intros a Ha; cbn [iter_pos].
  - replace (a * 2 ^ Zpos n~1) with (((a * 2 ^ Zpos n) * 2 ^ Zpos n) * 2).
    + assert (0 <= 2 ^ Zpos n) by (apply Z.pow_nonneg; lia).
      rewrite shr_1_even by nia.
      rewrite IH by nia. now apply IH.
    + replace (Zpos n~1) with (Zpos n + Zpos n + 1) by lia.
      rewrite !Z.pow_add_r by lia. change (2 ^ 1) with 2. ring.
  - replace (a * 2 ^ Zpos n~0) with ((a * 2 ^ Zpos n) * 2 ^ Zpos n).
    + assert (0 <= 2 ^ Zpos n) by (apply Z.pow_nonneg; lia).
      rewrite IH by nia. now apply IH.
    + replace (Zpos n~0) with (Zpos n + Zpos n) by lia.
      rewrite !Z.pow_add_r by lia. ring.
  - change (2 ^ 1) with 2. now apply shr_1_even.
Qed.

(** A mantissa that already has its place is left as it is. *)
Lemma round_aux_noshift (sx : bool) (p : positive) (ex : Z) :
  Z.max (Zpos (digits2_pos p) + ex - 53) (-1074) <= ex ->
  ex <= 971 ->
  binary_round_aux prec emax sx (Zpos p) ex loc_Exact = S754_finite sx p ex.
Proof.
  intros Hfe Hex.
  assert (N : forall mrs, shr mrs ex
                (Z.max (Zpos (digits2_pos p) + ex - 53) (-1074) - ex)
              = (mrs, ex)).
  { intros mrs.
    destruct (Z.max (Zpos (digits2_pos p) + ex - 53) (-1074) - ex)
      as [|k|k] eqn:D; [reflexivity | lia | reflexivity]. }
  unfold binary_round_aux, shr_fexp.
  cbn [Zdigits2]. rewrite FloatFacts.fexp_spec, N.
  cbn [shr_record_of_loc shr_m loc_of_shr_record round_nearest_even Zdigits2].
  rewrite FloatFacts.fexp_spec, N. cbn [shr_m].
  change (emax - prec) with 971.
  replace (ex <=? 971) with true by (symmetry; apply Z.leb_le; lia).
  reflexivity.
Qed.

Lemma shl_align_int (mx : positive) (ex ex' : Z) :
  ex' <= ex ->
  Zpos (fst (shl_align mx ex ex')) = Zpos mx * 2 ^ (ex - ex').
Proof.
  intros H. unfold shl_align.
  destruct (ex' - ex) as [|k|k] eqn:D; cbn [fst]; try lia.
  - replace (ex - ex') with 0 by lia. cbn. lia.
  - rewrite (proj1 (FloatFacts.iter_xO_spec mx k)).
    replace (ex - ex') with (Zpos k) by lia. reflexivity.
Qed.

(** [float(n)] is exact below [2^53]: a 53-bit mantissa of the same
    value. *)
Lemma of_int_exact (p : positive) :
  Zpos p < 2 ^ 53 ->
  exists mf ef,
    binary_normalize prec emax (Zpos p) 0 false = S754_finite false mf ef /\
    Zpos (digits2_pos mf) = 53 /\
    -52 <= ef <= 0 /\
    Zpos mf = Zpos p * 2 ^ (- ef).
Proof.
  intros Hp.
  assert (Hd : Zpos (digits2_pos p) <= 53) by (now apply FloatFacts.digits2_le).
  cbn [binary_normalize]. unfold binary_round.
  pose proof (FloatFacts.shl_align_spec p 0
                (fexp prec emax (Zpos (digits2_pos p) + 0))) as (_ & E & D).
  pose proof (shl_align_int p 0 (fexp prec emax (Zpos (digits2_pos p) + 0)))
    as I.
  rewrite FloatFacts.fexp_spec in *.
  destruct (shl_align p 0 _) as [mz ez]. cbn [fst snd] in *.
  exists mz, ez.
  assert (Hez : ez = Zpos (digits2_pos p) - 53) by lia.
  split.
  - apply round_aux_noshift; lia.
  - split; [lia | split; [lia | ]].
    rewrite I by lia. f_equal. f_equal. lia.
Qed.

(** Multiplying a normal double by 0.5 only lowers its exponent. *)
Lemma mul_half_exact (mf : positive) (ef : Z) :
  Zpos (digits2_pos mf) = 53 ->
  -1000 <= ef <= 971 ->
  mul (S754_finite false mf ef) (S754_finite false 4503599627370496 (-53))
  = S754_finite false mf (ef - 1).
Proof.
  intros Hd Hef. cbn [mul SFmul xorb].
  destruct (FloatFacts.iter_xO_spec mf 52) as [I1 I2].
  assert (Em : (mf * 4503599627370496)%positive = Pos.iter xO mf 52).
  { apply Pos2Z.inj. rewrite I1, Pos2Z.inj_mul. reflexivity. }
  rewrite Em.
  unfold binary_round_aux, shr_fexp.
  cbn [Zdigits2]. rewrite I2, Hd, FloatFacts.fexp_spec.
  replace (Z.max (53 + 52 + (ef + -53) - 53) (-1074) - (ef + -53))
    with 52 by lia.
  cbn [shr shr_record_of_loc]. rewrite I1.
  rewrite iter_shr_1_exact by lia.
  cbn [shr_m loc_of_shr_record round_nearest_even Zdigits2].
  rewrite Hd, FloatFacts.fexp_spec.
  replace (Z.max (53 + (ef + -53 + 52) - 53) (-1074) - (ef + -53 + 52))
    with 0 by lia.
  cbn [shr shr_record_of_loc shr_m].
  change (emax - prec) with 971.
  replace (ef + -53 + 52 <=? 971) with true
    by (symmetry; apply Z.leb_le; lia).
  f_equal. lia.
Qed.

End FloatExact.

(** X10.  For every core radius [r] with [0 <= r < 2^53] the highlight
    radius [int(r * 0.5)] is exactly [r // 2]: no rounding error enters.
    Beyond that range the conversion of [r] to a float rounds, and at
    [r = 2^53 + 3] the result is one more than [r // 2]. *)
Theorem highlight_radius_exact :
  (forall r, 0 <= r < 2 ^ 53 -> highlight_radius r = inr (r / 2)) /\
  highlight_radius (2 ^ 53 + 3) = inr ((2 ^ 53 + 3) / 2 + 1).
Proof.
  split; [ | vm_compute; reflexivity ].
  intros r [H0 H1]. unfold highlight_radius. rewrite literal_half.
  destruct r as [|p|p]; [reflexivity | | lia].
  unfold int_of_scaled, PyFloat.int_mul, PyFloat.of_int.
  destruct (FloatExact.of_int_exact p H1) as (mf & ef & -> & Hd & Hef & Hm).
  cbn [PyFloat.is_finite ebind].
  rewrite FloatExact.mul_half_exact by lia.
  cbn [PyFloat.to_int]. f_equal.
  rewrite Z.shiftl_div_pow2 by lia. rewrite Hm.
  replace (- (ef - 1)) with (- ef + 1) by lia.
  rewrite Z.pow_add_r by lia. change (2 ^ 1) with 2.
  assert (0 < 2 ^ (- ef)) by (apply Z.pow_pos_nonneg; lia).
  rewrite (Z.mul_comm (2 ^ (- ef)) 2).
  rewrite Z.div_mul_cancel_r by lia. reflexivity.
Qed.

Lemma highlight_radius_exact_witness : highlight_radius 55 = inr (55 / 2).
Proof.
  destruct highlight_radius_exact as [H _].
  apply (H 55). split; [lia | reflexivity].
Defined.

(** ** Where the icon goes *)

Lemma append_nonempty (s : string) (c : ascii) (t : string) :
  s ++ String c t <> "".
Proof. destruct s; discriminate. Qed.

(** X11.  Wherever the script is, the directory given to [os.makedirs] is
    not empty and is the saved path without its last component.  For a
    script [d/name] the icon goes to [d/../assets/icon.png]; for a script
    given by a bare file name (no directory part) it goes to the relative
    path [../assets/icon.png]; for a script directly under the root, to
    [/../assets/icon.png]. *)
Theorem icon_path_shape (h : Host) :
  parent_dir h <> "" /\
  OUT h = parent_dir h ++ "/icon.png" /\
  (forall d c name,
      PosixPath.is_sep c = false -> no_sep name = true ->
      script_file h = d ++ String c (String PosixPath.sep name) ->
      OUT h = d ++ String c "/../assets/icon.png" /\
      parent_dir h = d ++ String c "/../assets") /\
  (no_sep (script_file h) = true ->
   OUT h = "../assets/icon.png" /\ parent_dir h = "../assets") /\
  (forall name,
      no_sep name = true ->
      script_file h = String PosixPath.sep name ->
      OUT h = "/../assets/icon.png" /\ parent_dir h = "/../assets").
Proof.
  split.
  { rewrite PathFacts.parent_dir_spec. apply append_nonempty. }
  split; [apply OUT_in_parent_dir | ].
  rewrite PathFacts.OUT_spec, PathFacts.parent_dir_spec.
  split; [ | split ].
  - intros d c name Hc Hn ->.
    rewrite (PathFacts.dirname_of_file d c name Hc Hn).
    rewrite (PathFacts.dir_prefix_after_name d c "");
      [ | cbn [PosixPath.endswith_sep]; exact Hc ].
    rewrite !PathFacts.append_assoc. split; reflexivity.
  - intros Hn. unfold PosixPath.dirname.
    rewrite (PathFacts.upto_last_sep_name _ Hn). cbn. split; reflexivity.
  - intros name Hn ->. unfold PosixPath.dirname.
    cbn [PosixPath.upto_last_sep].
    rewrite (PathFacts.upto_last_sep_name _ Hn). cbn. split; reflexivity.
Qed.

Lemma icon_path_shape_witness :
  OUT linux_host = "/repo/desktop/scripts/../assets/icon.png" /\
  OUT full_disk_host = "../assets/icon.png" /\
  parent_dir full_disk_host = "../assets".
Proof.
  destruct (icon_path_shape linux_host) as (_ & _ & D & _).
  destruct (icon_path_shape full_disk_host) as (_ & _ & _ & B & _).
  destruct (D "/repo/desktop/script" "s"%char "generate-icon.py")
    as [O _]; [reflexivity | reflexivity | reflexivity | ].
  destruct B as [O' P']; [reflexivity | ].
  split; [exact O | split; [exact O' | exact P']].
Defined.
